(** * HGR: model-guided beam search and its deadline orchestration

    A shallow embedding of [src/eval.py] (batch evaluation, class
    [AgentSolver]) and [src/app.py] (interactive front-end), and the
    properties of the beam controller and of [solve_with_time] stated in
    the specification.

    Python objects of class [graph_solver] live in a heap of object states;
    a Python variable holding such an object is an address.  Exceptions are
    an explicit outcome, the logger and the calls to the scorer are recorded
    in a trace. *)

From Stdlib Require Import ZArith Lia Sorted Reals Lra.
From stdpp Require Import base list strings gmap pretty.

Local Open Scope Z_scope.

(** ** Exceptions and outcomes *)

(** The exception classes the code can meet; all of them derive from
    Python's [Exception].  [InvalidRef] stands for the access to an address
    that holds no object, which no Python program can perform: the model
    needs it to be total. *)
Inductive Exc : Type :=
  | AssertionError (hyp_num beam_size : Z)
  | IndexError
  | InvalidRef
  | Exception (msg : string).

Inductive Outcome (A : Type) : Type :=
  | Return (a : A)
  | Raise (e : Exc).
Arguments Return {A} a.
Arguments Raise {A} e.

(** ** The values the collaborators exchange *)

(** Python floats, with the operations the search applies to them ([flt] is
    [<], [fle] is [<=], which only the statements below use).  [to_float32]
    is the rounding of [torch.Tensor(list_of_floats)], read back with
    [.item()]. *)
Class Domain : Type := {
  Score : Type;
  flt : Score -> Score -> bool;
  fle : Score -> Score -> bool;
  fadd : Score -> Score -> Score;
  np_log : Score -> Score;
  to_float32 : Score -> Score;
  zero : Score;
  EPSILON : Score;
  Graph : Type;
  GraphData : Type;
  MapDict : Type;
  Answer : Type;
  GraphModel : Type;
  Target : Type;
}.

(** One entry of a reasoning record, as [app.py] displays it. *)
Record Instance : Type := {
  relation_label : string;
  actions : list string;
  equations : list string;
}.

Record Step : Type := {
  model_name : string;
  instances : list Instance;
}.

(** An element of a [step_lst]: [eval.py] stores theorem identifiers there,
    [app.py] the entries of a reasoning record. *)
Inductive StepItem : Type :=
  | ItemTheorem (theorem : nat)
  | ItemStep (s : Step).

Section Data.
Context `{D : Domain}.

(** The attributes of a [graph_solver] object that the search reads. *)
Record HypState : Type := {
  global_graph : Graph;
  reasoning_record : list Step;
  answer : option Answer;
  is_updated : bool;
  model_instance_eq_num : Z;
}.

(** The dictionary [beam_search_res]. *)
Record BeamRes : Type := {
  res_answer : option Answer;
  res_step_lst : list StepItem;
  res_model_instance_eq_num : option Z;
}.

(** What the trace records. *)
Inductive Event : Type :=
  | EvPredict (hyp : nat)
  | EvDeepcopy (src dst : nat)
  | EvApply (hyp theorem : nat)
  | EvLogError (e : Exc)
  | EvLogMessage (msg : string).

Record World : Type := {
  heap : list HypState;
  map_dict : MapDict;
  trace : list Event;
}.

(** The three parallel lists [hypotheses], [hyp_scores], [hyp_steps], read
    at one index. *)
Record Hyp : Type := {
  h_ref : nat;
  h_score : Score;
  h_steps : list nat;
}.

(** The three parallel lists [hyp_theorem], [conti_hyp_scores],
    [conti_hyp_steps], read at one index. *)
Record Cand : Type := {
  c_hyp : nat;
  c_theorem : nat;
  c_score : Score;
  c_steps : list nat;
}.
End Data.

(** ** The collaborators *)

Class Externals `{D : Domain} : Type := {
  (** [global_graph.to_dict()] *)
  to_dict : Graph -> GraphData;
  (** [agent.gen_vocab.reparse_graph_data] *)
  reparse_graph_data : GraphData -> MapDict -> GraphData * MapDict;
  (** [preprocess_item], the forward pass of the model and [torch.softmax] *)
  model_softmax : GraphData -> Outcome (list Score);
  (** [torch.sort(score, descending=True)]: values, then indices *)
  torch_sort : list Score -> list Score * list nat;
  (** [torch.topk(tensor, k)]: values, then indices *)
  torch_topk : list Score -> nat -> list Score * list nat;
  (** [reasoner.graph_matching.get_model] on the loaded model pool *)
  get_model : nat -> Outcome GraphModel;
  (** the method [solve_with_one_model]: the object after the call, and
      whether the call raised.  What the call changes is the object it is
      called on, with all that [copy.deepcopy] has copied with it. *)
  solve_with_one_model : GraphModel -> HypState -> Outcome unit * HypState;
}.

(** ** A state and exception monad over the world *)

Section Monad.
Context `{D : Domain}.

Definition M (A : Type) : Type := World -> Outcome A * World.

Definition ret {A} (a : A) : M A := fun w => (Return a, w).

Definition raise {A} (e : Exc) : M A := fun w => (Raise e, w).

Definition bind {A B} (m : M A) (k : A -> M B) : M B :=
  fun w =>
    match m w with
    | (Return a, w') => k a w'
    | (Raise e, w') => (Raise e, w')
    end.

Definition emit (ev : Event) : M unit :=
  fun w => (Return tt,
            {| heap := heap w; map_dict := map_dict w; trace := trace w ++ [ev] |}).

Definition read (a : nat) : M HypState :=
  fun w => match heap w !! a with
           | Some s => (Return s, w)
           | None => (Raise InvalidRef, w)
           end.

(** An assignment to the attributes of the object at [a].  (No call
    below writes to an address that holds no object.) *)
Definition write (a : nat) (s : HypState) : M unit :=
  fun w => (Return tt,
            {| heap := <[a := s]> (heap w); map_dict := map_dict w; trace := trace w |}).

Definition alloc (s : HypState) : M nat :=
  fun w => (Return (length (heap w)),
            {| heap := heap w ++ [s]; map_dict := map_dict w; trace := trace w |}).

Definition get_map_dict : M MapDict := fun w => (Return (map_dict w), w).

Definition set_map_dict (md : MapDict) : M unit :=
  fun w => (Return tt, {| heap := heap w; map_dict := md; trace := trace w |}).

Definition lift {A} (o : Outcome A) : M A := fun w => (o, w).
End Monad.

Notation "'do' x <- m ; k" := (bind m (fun x => k))
  (at level 10, x name, m at level 100, k at level 200).

(** ** The scorer and the beam controller *)

(** Which of the two scripts a definition is read from, where they differ. *)
Inductive Script : Type := eval_py | app_py.

Section Search.
Context `{X : Externals}.

(** [d[k] = v] on a dictionary kept in insertion order: a key already
    present keeps its place. *)
Definition dict_set (d : list (nat * Score)) (k : nat) (v : Score)
  : list (nat * Score) :=
  if existsb (fun kv => Nat.eqb (fst kv) k) d
  then map (fun kv => if Nat.eqb (fst kv) k then (k, v) else kv) d
  else d ++ [(k, v)].

(** [{k: v for k, v in pairs}] *)
Definition dict_of_pairs (pairs : list (nat * Score)) : list (nat * Score) :=
  fold_left (fun d kv => dict_set d (fst kv) (snd kv)) pairs [].

(** [theorem_pred]: the dictionary from theorem identifier to probability,
    in the order of [torch.sort]. *)
Definition theorem_pred (graph_solver : nat) : M (list (nat * Score)) :=
  do _ <- emit (EvPredict graph_solver);
  do s <- read graph_solver;
  do md <- get_map_dict;
  let graph_data := to_dict (global_graph s) in
  let reparsed := reparse_graph_data graph_data md in
  do _ <- set_map_dict (snd reparsed);
  do score <- lift (model_softmax (fst reparsed));
  let sorted_score := torch_sort score in
  ret (dict_of_pairs (zip (snd sorted_score) (fst sorted_score))).

(** The loop [for i in range(beam_size)] for one hypothesis. *)
Fixpoint expand_ranks (sorted_score_dict : list (nat * Score)) (hyp : Hyp)
    (ranks : list nat) (pool : list Cand) : Outcome (list Cand) :=
  match ranks with
  | [] => Return pool
  | i :: ranks' =>
      match sorted_score_dict !! i with
      | None => Raise IndexError
      | Some (theorem, cur_score) =>
          if flt cur_score EPSILON
          then expand_ranks sorted_score_dict hyp ranks' pool
          else expand_ranks sorted_score_dict hyp ranks'
                 (pool ++ [{| c_hyp := h_ref hyp;
                              c_theorem := theorem;
                              c_score := fadd (h_score hyp) (np_log cur_score);
                              c_steps := h_steps hyp ++ [theorem] |}])
      end
  end.

(** The loop [for hyp_index, hyp in enumerate(hypotheses)]. *)
Fixpoint expand (beam_size : Z) (hypotheses : list Hyp) (pool : list Cand)
  : M (list Cand) :=
  match hypotheses with
  | [] => ret pool
  | hyp :: rest =>
      do sorted_score_dict <- theorem_pred (h_ref hyp);
      do pool' <- lift (expand_ranks sorted_score_dict hyp
                          (seq 0 (Z.to_nat beam_size)) pool);
      expand beam_size rest pool'
  end.

(** [torch.Tensor(conti_hyp_scores)] *)
Definition torch_Tensor (l : list Score) : list Score := map to_float32 l.

(** [torch.topk] on the pool, zipped as the second loop reads it:
    position in the pool, then score. *)
Definition select (beam_size : Z) (pool : list Cand) : list (nat * Score) :=
  let conti_hyp_scores := torch_Tensor (map c_score pool) in
  let k := Z.min beam_size (Z.of_nat (length conti_hyp_scores)) in
  let top := torch_topk conti_hyp_scores (Z.to_nat k) in
  zip (snd top) (fst top).

(** [copy.deepcopy]: a new object with the state of the source. *)
Definition deepcopy (src : nat) : M nat :=
  do s <- read src;
  do dst <- alloc s;
  do _ <- emit (EvDeepcopy src dst);
  ret dst.

(** [try: ... except Exception as e: ...] *)
Definition try_except {A} (body : M A) (handler : Exc -> M A) : M A :=
  fun w =>
    match body w with
    | (Return a, w') => (Return a, w')
    | (Raise e, w') => handler e w'
    end.

(** [now_hyp.solve_with_one_model(graph_model)] *)
Definition call_solve_with_one_model (now_hyp theorem : nat)
    (graph_model : GraphModel) : M unit :=
  do s <- read now_hyp;
  do _ <- emit (EvApply now_hyp theorem);
  let r := solve_with_one_model graph_model s in
  do _ <- write now_hyp (snd r);
  lift (fst r).

(** The [try] statement of the second loop: [true] when control reaches
    the statements after it, [false] on either [continue]. *)
Definition apply_theorem (now_hyp theorem : nat) : M bool :=
  try_except
    (do graph_model <- lift (get_model theorem);
     do _ <- call_solve_with_one_model now_hyp theorem graph_model;
     do s <- read now_hyp;
     ret (is_updated s))
    (fun e => do _ <- emit (EvLogError e); ret false).

(** The step list returned with an answer: [now_steps] in [eval.py],
    [now_hyp.reasoning_record] in [app.py]. *)
Definition answer_steps (script : Script) (now_steps : list nat)
    (now_hyp : HypState) : list StepItem :=
  match script with
  | eval_py => map ItemTheorem now_steps
  | app_py => map ItemStep (reasoning_record now_hyp)
  end.

(** What one pass of the second loop does with its candidate. *)
Inductive Visit : Type :=
  | Dropped
  | Answered (beam_search_res : BeamRes)
  | Kept (h : Hyp).

Definition visit (script : Script) (pool : list Cand)
    (cand_hyp_id : nat) (cand_hyp_score : Score) : M Visit :=
  let new_score := cand_hyp_score in
  match pool !! cand_hyp_id with
  | None => raise IndexError
  | Some c =>
      let prev_hyp := c_hyp c in
      let theorem := c_theorem c in
      let now_steps := c_steps c in
      do now_hyp <- deepcopy prev_hyp;
      do applied <- apply_theorem now_hyp theorem;
      if negb applied then ret Dropped
      else
        do s <- read now_hyp;
        match answer s with
        | Some a =>
            ret (Answered {| res_answer := Some a;
                             res_step_lst := answer_steps script now_steps s;
                             res_model_instance_eq_num :=
                               Some (model_instance_eq_num s) |})
        | None =>
            ret (Kept {| h_ref := now_hyp; h_score := new_score;
                         h_steps := now_steps |})
        end
  end.

(** How one iteration of the [while] loop ends. *)
Inductive Ctl : Type :=
  | Continue (hypotheses : list Hyp)
  | Finish (beam_search_res : BeamRes).

(** The loop [for cand_hyp_id, cand_hyp_score in zip(...)]. *)
Fixpoint advance (script : Script) (pool : list Cand)
    (top : list (nat * Score)) (new_hypotheses : list Hyp) : M Ctl :=
  match top with
  | [] => ret (Continue new_hypotheses)
  | (cand_hyp_id, cand_hyp_score) :: top' =>
      do r <- visit script pool cand_hyp_id cand_hyp_score;
      match r with
      | Dropped => advance script pool top' new_hypotheses
      | Answered res => ret (Finish res)
      | Kept h => advance script pool top' (new_hypotheses ++ [h])
      end
  end.

(** The body of [while t < max_step]. *)
Definition beam_iter (script : Script) (beam_size : Z)
    (hypotheses : list Hyp) : M Ctl :=
  let hyp_num := Z.of_nat (length hypotheses) in
  if hyp_num <=? beam_size then
    do pool <- expand beam_size hypotheses [];
    advance script pool (select beam_size pool) []
  else raise (AssertionError hyp_num beam_size).

Definition empty_res : BeamRes :=
  {| res_answer := None; res_step_lst := []; res_model_instance_eq_num := None |}.

(** [while t < max_step: t += 1; ...] with [t] starting at 0 runs its body
    [remaining] more times, [remaining] being [max_step - t] when that is
    positive and 0 otherwise. *)
Fixpoint while_loop (script : Script) (beam_size : Z) (remaining : nat)
    (hypotheses : list Hyp) : M BeamRes :=
  match remaining with
  | O => ret empty_res
  | S remaining' =>
      do c <- beam_iter script beam_size hypotheses;
      match c with
      | Finish res => ret res
      | Continue new_hypotheses =>
          while_loop script beam_size remaining' new_hypotheses
      end
  end.

Definition initial_frontier (graph_solver : nat) : list Hyp :=
  [{| h_ref := graph_solver; h_score := zero; h_steps := [] |}].

Definition beam_search_of (script : Script) (max_step beam_size : Z)
    (graph_solver : nat) : M BeamRes :=
  while_loop script beam_size (Z.to_nat max_step) (initial_frontier graph_solver).
End Search.

(** ** The result dictionary and the problem files *)

(** The value under the key ["id"]: the problem identifier, or, in the
    default dictionary of [app.py]'s [solve_with_time], Python's built-in
    function [id]. *)
Inductive IdValue : Type :=
  | IdStr (q_id : string)
  | IdBuiltin.

Section Records.
Context `{D : Domain}.

(** The dictionary [res]. *)
Record ResultRecord : Type := {
  r_id : IdValue;
  r_target : option Target;
  r_answer : option Answer;
  r_step_lst : list StepItem;
  r_model_instance_eq_num : option Z;
  r_correctness : string;
  r_time : option string;
}.

Definition default_res (i : IdValue) : ResultRecord :=
  {| r_id := i; r_target := None; r_answer := None; r_step_lst := [];
     r_model_instance_eq_num := None; r_correctness := "no"; r_time := None |}.

(** The keys of [data.json] that [solve] reads, [precise_value] kept as
    the verifier receives it. *)
Record Data (Choices : Type) : Type := {
  precise_value : Choices;
  data_answer : string;
}.
End Records.
Arguments precise_value {Choices} d.
Arguments data_answer {Choices} d.

(** The problem store, the verifier, the construction of the initial
    hypothesis, the heuristic solver and the eligibility tables. *)
Class Problems `{D : Domain} : Type := {
  Choices : Type;
  (** [json.load] of [db_dir_single/q_id/data.json] *)
  load_data : string -> Outcome (Data Choices);
  (** [tool.run_HGR.get_graph_solver]: the state of the new object, and the
      target *)
  get_graph_solver : string -> Outcome (HypState * Target);
  (** the method [init_solve], as [solve_with_one_model] above *)
  init_solve : HypState -> Outcome unit * HypState;
  (** [tool.run_HGR.check_transformed_answer] *)
  check_transformed_answer : Answer -> Choices -> Z -> Outcome (bool * Answer);
  (** [tool.run_HGR.solve_question] *)
  solve_question : string -> Outcome ResultRecord;
  (** the keys of the two dictionaries of logic forms, and [error_ids] *)
  diagram_logic_forms_json : gset string;
  text_logic_forms_json : gset string;
  error_ids : gset string;
}.

Section Pipeline.
Context `{X : Externals} `{P : @Problems D}.

(** [ord(c)] for a string of one character. *)
Definition ord (c : string) : Outcome Z :=
  match c with
  | String a EmptyString => Return (Z.of_nat (Ascii.nat_of_ascii a))
  | _ => Raise (Exception "ord() expected a character")
  end.

(** [graph_solver.init_solve()] *)
Definition call_init_solve (graph_solver : nat) : M unit :=
  do s <- read graph_solver;
  let r := init_solve s in
  do _ <- write graph_solver (snd r);
  lift (fst r).

(** The test that guards every solve:
    [q_id not in diagram_logic_forms_json or q_id not in
     text_logic_forms_json or q_id in error_ids]. *)
Definition ineligible (q_id : string) : bool :=
  negb (bool_decide (q_id ∈ diagram_logic_forms_json))
  || negb (bool_decide (q_id ∈ text_logic_forms_json))
  || bool_decide (q_id ∈ error_ids).
End Pipeline.

(** ** The two scripts *)

Inductive Stage : Type := Primary | Fallback.

Section Orchestration.
Context `{D : Domain}.

(** What [solve_with_time] does that its caller can observe besides the
    returned value: the child processes it starts and terminates, and the
    lines it (or the function run in the child) sends to [eval_logger]. *)
Inductive OEvent : Type :=
  | ProcStart (st : Stage)
  | ProcTerminate (st : Stage)
  | LogIneligible
  | LogTimeout (st : Stage)
  | LogFallback
  | LogSolveError (st : Stage) (e : Exc)
  | LogResult (res : ResultRecord).

Definition set_target (res : ResultRecord) (v : option Target) : ResultRecord :=
  {| r_id := r_id res; r_target := v; r_answer := r_answer res;
     r_step_lst := r_step_lst res;
     r_model_instance_eq_num := r_model_instance_eq_num res;
     r_correctness := r_correctness res; r_time := r_time res |}.

Definition set_answer (res : ResultRecord) (v : option Answer) : ResultRecord :=
  {| r_id := r_id res; r_target := r_target res; r_answer := v;
     r_step_lst := r_step_lst res;
     r_model_instance_eq_num := r_model_instance_eq_num res;
     r_correctness := r_correctness res; r_time := r_time res |}.

Definition set_step_lst (res : ResultRecord) (v : list StepItem) : ResultRecord :=
  {| r_id := r_id res; r_target := r_target res; r_answer := r_answer res;
     r_step_lst := v;
     r_model_instance_eq_num := r_model_instance_eq_num res;
     r_correctness := r_correctness res; r_time := r_time res |}.

Definition set_model_instance_eq_num (res : ResultRecord) (v : option Z)
  : ResultRecord :=
  {| r_id := r_id res; r_target := r_target res; r_answer := r_answer res;
     r_step_lst := r_step_lst res; r_model_instance_eq_num := v;
     r_correctness := r_correctness res; r_time := r_time res |}.

Definition set_correctness (res : ResultRecord) (v : string) : ResultRecord :=
  {| r_id := r_id res; r_target := r_target res; r_answer := r_answer res;
     r_step_lst := r_step_lst res;
     r_model_instance_eq_num := r_model_instance_eq_num res;
     r_correctness := v; r_time := r_time res |}.

Definition set_time (res : ResultRecord) (v : option string) : ResultRecord :=
  {| r_id := r_id res; r_target := r_target res; r_answer := r_answer res;
     r_step_lst := r_step_lst res;
     r_model_instance_eq_num := r_model_instance_eq_num res;
     r_correctness := r_correctness res; r_time := v |}.

(** [res = return_dict.get('result', res)] *)
Definition get_result (return_dict : option ResultRecord) (res : ResultRecord)
  : ResultRecord :=
  match return_dict with
  | Some result => result
  | None => res
  end.

(** [p.start(); p.join(120); if p.is_alive(): p.terminate(); p.join();
    eval_logger.error(...)].  Whether the child returns within the 120
    seconds is not decided by the program: [in_time] says so.  A child
    that is terminated has not written to [return_dict]. *)
Definition run_process (st : Stage) (in_time : bool)
    (target : option ResultRecord -> option ResultRecord * list OEvent)
    (return_dict : option ResultRecord)
  : option ResultRecord * list OEvent :=
  if in_time
  then (fst (target return_dict), ProcStart st :: snd (target return_dict))
  else (return_dict, [ProcStart st; ProcTerminate st; LogTimeout st]).
End Orchestration.

Module EvalPy.
Section EvalPy.
Context `{X : Externals} `{P : @Problems D}.

(** The attributes of [AgentSolver] that the search reads; [self.map_dict]
  is the [map_dict] of the world. *)
Record AgentSolver : Type := {
max_step : Z;
beam_size : Z;
}.

(** [AgentSolver.beam_search] *)
Definition beam_search (self : AgentSolver) (graph_solver : nat) : M BeamRes :=
beam_search_of eval_py (max_step self) (beam_size self) graph_solver.

(** [AgentSolver.solve]; [clock] is what [str(time.time() - s_time)]
  evaluates to where the method reads it. *)
Definition solve (self : AgentSolver) (q_id : string) (clock : string)
: M ResultRecord :=
let res := default_res (IdStr q_id) in
do data <- lift (load_data q_id);
let candidate_value_list := precise_value data in
do code <- lift (ord (data_answer data));
let gt_id := code - 65 in
do created <- lift (get_graph_solver q_id);
do graph_solver <- alloc (fst created);
let target := snd created in
let res := set_target res (Some target) in
do _ <- call_init_solve graph_solver;
do s <- read graph_solver;
do direct <-
  match answer s with
  | Some a =>
      do checked <- lift (check_transformed_answer a candidate_value_list gt_id);
      ret (if fst checked then Some (snd checked) else None)
  | None => ret None
  end;
match direct with
| Some a =>
    ret (set_time
           (set_model_instance_eq_num
              (set_answer (set_correctness res "yes") (Some a))
              (Some (model_instance_eq_num s)))
           (Some clock))
| None =>
    do beam_search_res <- beam_search self graph_solver;
    let res := set_step_lst res (res_step_lst beam_search_res) in
    let res := set_model_instance_eq_num res
                 (res_model_instance_eq_num beam_search_res) in
    let res := set_time res (Some clock) in
    match res_answer beam_search_res with
    | Some a =>
        do checked <- lift (check_transformed_answer a candidate_value_list gt_id);
        let res := set_answer res (Some (snd checked)) in
        if fst checked then ret (set_correctness res "yes") else ret res
    | None => ret res
    end
end.

(** [solve_process], run in the child on the solver it received;
  [solver_state] is the world of the child when it starts. *)
Definition solve_process (solver : AgentSolver) (solver_state : World)
  (q_id : string) (clock : string) (res : ResultRecord)
  (return_dict : option ResultRecord)
: option ResultRecord * list OEvent :=
match fst (solve solver q_id clock solver_state) with
| Return result => (Some result, [])
| Raise e => (Some res, [LogSolveError Primary e])
end.

(** [solve_heuristic_process] *)
Definition solve_heuristic_process (q_id : string) (res : ResultRecord)
  (return_dict : option ResultRecord)
: option ResultRecord * list OEvent :=
match solve_question q_id with
| Return result => (Some result, [])
| Raise e => (Some res, [LogSolveError Fallback e])
end.

(** [solve_with_time(solver, q_id)]; [in_time st] says whether the child
  of stage [st] returns within its 120 seconds. *)
Definition solve_with_time (solver : AgentSolver) (solver_state : World)
  (q_id : Z) (clock : string) (in_time : Stage -> bool)
: ResultRecord * list OEvent :=
let q_id := pretty q_id in
let res := default_res (IdStr q_id) in
if ineligible q_id then (res, [LogIneligible])
else
  let return_dict : option ResultRecord := None in
  let p := run_process Primary (in_time Primary)
             (solve_process solver solver_state q_id clock res) return_dict in
  let return_dict := fst p in
  let res := get_result return_dict res in
  if String.eqb (r_correctness res) "no" then
    let p_fallback := run_process Fallback (in_time Fallback)
                        (solve_heuristic_process q_id res) return_dict in
    let return_dict := fst p_fallback in
    let res := get_result return_dict res in
    (res, snd p ++ [LogFallback] ++ snd p_fallback ++ [LogResult res])
  else (res, snd p ++ [LogResult res]).

(** [eval(solver, st, ed)]: [solve_with_time] for every identifier of
  [trange(st, ed)], in order; what it returns is dropped.  [clock] and
  [in_time] are given for each problem.  The parent keeps its solver as
  it is: each child works on the copy it received.  (The [except] clause
  of the loop has nothing to catch from [solve_with_time] as it is
  modelled here.) *)
Definition eval (solver : AgentSolver) (solver_state : World) (st ed : Z)
  (clock : Z -> string) (in_time : Z -> Stage -> bool) : list OEvent :=
flat_map (fun q_id => snd (solve_with_time solver solver_state q_id
                             (clock q_id) (in_time q_id)))
         (seqZ st (ed - st)).
End EvalPy.
End EvalPy.

Module AppPy.
Section AppPy.
Context `{X : Externals} `{P : @Problems D}.

(** [beam_search(graph_solver, model, max_step, beam_size)] *)
Definition beam_search (graph_solver : nat) (max_step beam_size : Z) : M BeamRes :=
beam_search_of app_py max_step beam_size graph_solver.

(** [solve]; the value is [None] where the function ends without a
  [return].  The single [try] of the source is written as two nested
  ones, the inner one around the statements that follow the updates of
  [res], so that each handler returns [res] as it is when the exception
  is raised. *)
Definition solve (q_id : string) (max_step beam_size : Z) (clock : string)
: M (option ResultRecord) :=
let res := default_res (IdStr q_id) in
if ineligible q_id then
  do _ <- emit (EvLogMessage "not in diagram_logic_forms_json or not in text_logic_forms_json or in error_ids");
  ret (Some res)
else
  do data <- lift (load_data q_id);
  let candidate_value_list := precise_value data in
  do code <- lift (ord (data_answer data));
  let gt_id := code - 65 in
  try_except
    (do created <- lift (get_graph_solver q_id);
     do graph_solver <- alloc (fst created);
     let target := snd created in
     do _ <- call_init_solve graph_solver;
     do s <- read graph_solver;
     do direct <-
       match answer s with
       | Some a =>
           do checked <- lift (check_transformed_answer a candidate_value_list gt_id);
           ret (if fst checked then Some (snd checked) else None)
       | None => ret None
       end;
     match direct with
     | Some a =>
         ret (Some (set_time
                      (set_model_instance_eq_num
                         (set_answer
                            (set_target (set_correctness res "yes") (Some target))
                            (Some a))
                         (Some (model_instance_eq_num s)))
                      (Some clock)))
     | None =>
         do beam_search_res <- beam_search graph_solver max_step beam_size;
         let res := set_step_lst res (res_step_lst beam_search_res) in
         let res := set_model_instance_eq_num res
                      (res_model_instance_eq_num beam_search_res) in
         let res := set_time res (Some clock) in
         try_except
           match res_answer beam_search_res with
           | Some a =>
               do checked <- lift (check_transformed_answer a candidate_value_list gt_id);
               if fst checked
               then ret (Some (set_answer
                                 (set_target (set_correctness res "yes") (Some target))
                                 (Some (snd checked))))
               else ret None
           | None => ret (Some res)
           end
           (fun e => do _ <- emit (EvLogError e); ret (Some res))
     end)
    (fun e => do _ <- emit (EvLogError e); ret (Some res)).

(** [solve_with_time(q_id, model, max_step, beam_size)]: [func_timeout]
  either returns what [solve] returns, or raises what it raises, or
  raises [FunctionTimedOut] when [solve] is not back within 120 seconds
  ([in_time] false). *)
Definition solve_with_time (state : World) (q_id : string)
  (max_step beam_size : Z) (clock : string) (in_time : bool)
: option ResultRecord * list OEvent :=
let res := default_res IdBuiltin in
if in_time then
  match fst (solve q_id max_step beam_size clock state) with
  | Return res => (res, [])
  | Raise e => (Some res, [LogSolveError Primary e])
  end
else (Some res, [LogTimeout Primary]).
End AppPy.
End AppPy.

(** * Statements

    The predicates the theorems below are stated with. *)

(** ** What the search assumes of PyTorch *)

Section Contracts.
Context `{X : Externals}.

Definition descending (l : list Score) : Prop :=
  forall i j p q, (i <= j)%nat -> l !! i = Some p -> l !! j = Some q ->
                  fle q p = true.

(** [torch.topk(t, k)] with [k] at most the size of [t]: [k] values and
    [k] indices, each value being the element of [t] at its index. *)
Definition topk_contract : Prop :=
  forall (t : list Score) (k : nat), (k <= length t)%nat ->
    length (fst (torch_topk t k)) = k /\
    length (snd (torch_topk t k)) = k /\
    forall j i, snd (torch_topk t k) !! j = Some i ->
      exists v, t !! i = Some v /\ fst (torch_topk t k) !! j = Some v.

(** [torch.sort(t, descending=True)]: as many values as indices, the
    indices pairwise distinct, the values in descending order. *)
Definition sort_contract : Prop :=
  forall t : list Score,
    length (fst (torch_sort t)) = length (snd (torch_sort t)) /\
    NoDup (snd (torch_sort t)) /\
    descending (fst (torch_sort t)).
End Contracts.


Section Generation.
Context `{D : Domain}.

(** The candidates that the loop over the ranks forms for [hyp] from the
    entries it reads. *)
Definition candidates_of (hyp : Hyp) (entries : list (nat * Score)) : list Cand :=
  omap (fun entry =>
          if flt (snd entry) EPSILON then None
          else Some {| c_hyp := h_ref hyp;
                       c_theorem := fst entry;
                       c_score := fadd (h_score hyp) (np_log (snd entry));
                       c_steps := h_steps hyp ++ [fst entry] |})
       entries.
End Generation.

Section Statements.
Context `{X : Externals}.

(** The iteration boundaries of a run of the search started on
    [graph_solver] in the world [w0]: the start, and the end of every
    iteration that did not return. *)
Inductive boundary (script : Script) (beam_size : Z) (graph_solver : nat)
    (w0 : World) : World -> list Hyp -> Prop :=
  | boundary_start :
      boundary script beam_size graph_solver w0 w0 (initial_frontier graph_solver)
  | boundary_next w hypotheses w' new_hypotheses :
      boundary script beam_size graph_solver w0 w hypotheses ->
      beam_iter script beam_size hypotheses w = (Return (Continue new_hypotheses), w') ->
      boundary script beam_size graph_solver w0 w' new_hypotheses.

(** The candidate [c] was formed for the hypothesis [hyp]: it stands at a
    rank below [beam_size] of a dictionary predicted for [hyp], with a
    probability [p] that is not below [EPSILON]. *)
Definition generated_by (beam_size : Z) (hyp : Hyp) (p : Score) (c : Cand) : Prop :=
  exists d i w1 w2,
    theorem_pred (h_ref hyp) w1 = (Return d, w2) /\
    (i < Z.to_nat beam_size)%nat /\
    d !! i = Some (c_theorem c, p) /\
    flt p EPSILON = false /\
    c_hyp c = h_ref hyp /\
    c_score c = fadd (h_score hyp) (np_log p) /\
    c_steps c = h_steps hyp ++ [c_theorem c].

Definition generated (beam_size : Z) (hypotheses : list Hyp) (c : Cand) : Prop :=
  exists hyp p, hyp ∈ hypotheses /\ generated_by beam_size hyp p c.

(** The calls [theorem_pred(hyp)] of the first loop of an iteration, in the
    order of the frontier: each call runs in the world that the call
    before it has left, the first one in the world in which the iteration
    is entered.  The value is the list of the dictionaries returned, one
    for each hypothesis of the frontier. *)
Fixpoint predictions (hypotheses : list Hyp) : M (list (list (nat * Score))) :=
  match hypotheses with
  | [] => ret []
  | hyp :: rest =>
      do sorted_score_dict <- theorem_pred (h_ref hyp);
      do dicts <- predictions rest;
      ret (sorted_score_dict :: dicts)
  end.

(** The candidate [c] was formed for the hypothesis [hyp] from the
    dictionary [d]: it stands at a rank below [beam_size] of [d], with a
    probability [p] that is not below [EPSILON]. *)
Definition formed_from (beam_size : Z) (hyp : Hyp) (d : list (nat * Score))
    (p : Score) (c : Cand) : Prop :=
  exists i,
    (i < Z.to_nat beam_size)%nat /\
    d !! i = Some (c_theorem c, p) /\
    flt p EPSILON = false /\
    c_hyp c = h_ref hyp /\
    c_score c = fadd (h_score hyp) (np_log p) /\
    c_steps c = h_steps hyp ++ [c_theorem c].

(** The candidate [c] was formed for a hypothesis of the frontier from the
    dictionary that stands for it in [dicts], at the same position. *)
Definition formed (beam_size : Z) (hypotheses : list Hyp)
    (dicts : list (list (nat * Score))) (c : Cand) : Prop :=
  exists j hyp d p,
    hypotheses !! j = Some hyp /\ dicts !! j = Some d /\
    formed_from beam_size hyp d p c.
End Statements.

Section Attempts.
Context `{X : Externals}.

(** What resolving [theorem] and applying it to an object in state [s]
    leads to. *)
Inductive Attempt : Type :=
  | ResolutionFails (e : Exc)
  | ApplicationFails (e : Exc) (s' : HypState)
  | NoOp (s' : HypState)
  | Updated (s' : HypState).

Definition attempt (theorem : nat) (s : HypState) : Attempt :=
  match get_model theorem with
  | Raise e => ResolutionFails e
  | Return graph_model =>
      match solve_with_one_model graph_model s with
      | (Raise e, s') => ApplicationFails e s'
      | (Return _, s') => if is_updated s' then Updated s' else NoOp s'
      end
  end.

(** The world after the candidate [c], whose parent is in state [s], has
    been visited in the world [w]. *)
Definition visited (w : World) (c : Cand) (s : HypState) : World :=
  let now_hyp := length (heap w) in
  let copy := EvDeepcopy (c_hyp c) now_hyp in
  let call := EvApply now_hyp (c_theorem c) in
  match attempt (c_theorem c) s with
  | ResolutionFails e =>
      {| heap := heap w ++ [s]; map_dict := map_dict w;
         trace := trace w ++ [copy; EvLogError e] |}
  | ApplicationFails e s' =>
      {| heap := heap w ++ [s']; map_dict := map_dict w;
         trace := trace w ++ [copy; call; EvLogError e] |}
  | NoOp s' | Updated s' =>
      {| heap := heap w ++ [s']; map_dict := map_dict w;
         trace := trace w ++ [copy; call] |}
  end.

(** The exceptions sent to [eval_logger.error] so far. *)
Definition logged (w : World) : list Exc :=
  omap (fun ev => match ev with EvLogError e => Some e | _ => None end) (trace w).

(** The hypotheses on which the scorer has been called so far. *)
Definition predicted (w : World) : list nat :=
  omap (fun ev => match ev with EvPredict a => Some a | _ => None end) (trace w).
End Attempts.

(** ** What the search assumes of floating-point arithmetic

    The facts on [<=], [+], [np.log] and the rounding to [float32] that the
    statement on scores rests on.  They are stated so that the IEEE 754
    operations satisfy them: the logarithm is only constrained on the
    probabilities that the search lets through, and the sum on scores that
    are at most zero, which excludes NaN and the sum of opposite
    infinities. *)
Class FloatLaws `{D : Domain} (one : Score) : Prop := {
  laws_trans : forall a b c : Score, fle a b = true -> fle b c = true -> fle a c = true;
  laws_zero : fle zero zero = true;
  laws_log : forall p : Score,
    fle p one = true -> flt p EPSILON = false -> fle (np_log p) zero = true;
  laws_add : forall a x : Score,
    fle a zero = true -> fle x zero = true -> fle (fadd a x) a = true;
  laws_float32_mono : forall a b : Score,
    fle a b = true -> fle (to_float32 a) (to_float32 b) = true;
  laws_float32_idem : forall a : Score, to_float32 (to_float32 a) = to_float32 a;
  laws_float32_zero : to_float32 zero = zero;
}.

Section ScoreStatements.
Context `{X : Externals}.

(** Every probability that the scorer returns is at most [one]. *)
Definition probabilities_at_most (one : Score) : Prop :=
  forall a w d w', theorem_pred a w = (Return d, w') ->
                   Forall (fun kv => fle (snd kv) one = true) d.

(** The scores of a frontier are at most zero and are [float32] values. *)
Definition sound_scores (hypotheses : list Hyp) : Prop :=
  Forall (fun h => fle (h_score h) zero = true /\
                   to_float32 (h_score h) = h_score h) hypotheses.
End ScoreStatements.

(** ** How a stage of [solve_with_time] ends *)

Section Endings.
Context `{D : Domain}.

Inductive Ending : Type :=
  | Succeeds (res : ResultRecord)
  | Fails (e : Exc)
  | TimesOut.

(** The ending of a stage that computes [o] when it is given the time. *)
Definition ending (in_time : bool) (o : Outcome ResultRecord) : Ending :=
  if in_time then
    match o with
    | Return res => Succeeds res
    | Raise e => Fails e
    end
  else TimesOut.

Definition well_formed (res : ResultRecord) : Prop :=
  r_correctness res = "yes" \/ r_correctness res = "no".
End Endings.
(** ** A reference selection, usable at any score type

    A descending sort that keeps equal scores in the order of their
    positions, for the instances on which the definitions above are run. *)

Section Selection.
Context `{D : Domain}.

Fixpoint insert_desc (x : Score * nat) (l : list (Score * nat))
  : list (Score * nat) :=
  match l with
  | [] => [x]
  | y :: l' => if flt (fst y) (fst x) then x :: y :: l' else y :: insert_desc x l'
  end.

Definition sort_desc (l : list (Score * nat)) : list (Score * nat) :=
  fold_left (fun acc x => insert_desc x acc) l [].

Definition indexed (t : list Score) : list (Score * nat) :=
  zip t (seq 0 (length t)).

Definition sort_by_insertion (t : list Score) : list Score * list nat :=
  (map fst (sort_desc (indexed t)), map snd (sort_desc (indexed t))).

(** [x] may stand before [y] in a descending list. *)
Definition before (x y : Score * nat) : Prop := fle (fst y) (fst x) = true.

Definition topk_by_insertion (t : list Score) (k : nat) : list Score * list nat :=
  (map fst (take k (sort_desc (indexed t))),
   map snd (take k (sort_desc (indexed t)))).
End Selection.

(** ** An instance to run the definitions on

    Scores are fixed-point numbers, in units of 2^-20; the logarithm is
    read off the position of the leading bit, and the rounding to [float32]
    drops the three lowest bits.  There are four
    theorems: 0 applies, and yields the answer once the graph has grown
    enough; 1 leaves the hypothesis unchanged; 2 raises while it is applied;
    3 has no model in the pool. *)

Module Demo.
Definition unit_one : Z := 1048576.

#[export] Instance domain : Domain := {|
  Score := Z;
  flt := Z.ltb;
  fle := Z.leb;
  fadd := Z.add;
  np_log := fun p => (Z.log2 p - 20) * 726817;
  to_float32 := fun x => x / 8 * 8;
  zero := 0;
  EPSILON := 10;
  Graph := nat;
  GraphData := nat;
  MapDict := nat;
  Answer := Z;
  GraphModel := nat;
  Target := string;
|}.

Definition a_step (g : nat) : Step :=
  {| model_name := "theorem 0";
     instances := [{| relation_label := "Equals"; actions := [];
                      equations := [pretty g] |}] |}.

Definition apply_model (m : nat) (s : HypState) : Outcome unit * HypState :=
  match m with
  | O =>
      let g := S (2 * global_graph s) in
      (Return tt,
       {| global_graph := g;
          reasoning_record := reasoning_record s ++ [a_step g];
          answer := if (3 <=? g)%nat then Some 42 else answer s;
          is_updated := true;
          model_instance_eq_num := model_instance_eq_num s + 1 |})
  | 1%nat =>
      (Return tt,
       {| global_graph := global_graph s;
          reasoning_record := reasoning_record s;
          answer := answer s;
          is_updated := false;
          model_instance_eq_num := model_instance_eq_num s |})
  | _ =>
      (Raise (Exception "no instance matched"),
       {| global_graph := global_graph s;
          reasoning_record := reasoning_record s;
          answer := answer s;
          is_updated := true;
          model_instance_eq_num := model_instance_eq_num s + 1 |})
  end.

#[export] Instance externals : Externals := {|
  to_dict := fun g => g;
  reparse_graph_data := fun gd md => (gd, S md);
  model_softmax := fun gd =>
    if (gd =? 7)%nat then Raise (Exception "inference failed")
    else Return [524288; 262144; 262139; 5];
  torch_sort := sort_by_insertion;
  torch_topk := topk_by_insertion;
  get_model := fun theorem =>
    if (theorem =? 3)%nat then Raise (Exception "unknown model id")
    else Return theorem;
  solve_with_one_model := apply_model;
|}.

Definition start (g : nat) (a : option Z) : HypState :=
  {| global_graph := g; reasoning_record := []; answer := a;
     is_updated := false; model_instance_eq_num := 0 |}.

Definition yes_record (q_id : string) : ResultRecord :=
  {| r_id := IdStr q_id; r_target := Some "Find x"; r_answer := Some 42;
     r_step_lst := []; r_model_instance_eq_num := Some 3;
     r_correctness := "yes"; r_time := Some "0.5" |}.

(** Problem ["2"] is solved by [init_solve]; the ground truth of problem
    ["3"] is not what the search finds; ["4"] is excluded; the data file
    of ["5"] is missing; the heuristic solver fails on ["6"]. *)
#[export] Instance problems : Problems := {|
  Choices := list Z;
  load_data := fun q_id =>
    if String.eqb q_id "5" then Raise (Exception "No such file or directory")
    else Return {| precise_value := [41; 42; 43; 44];
                   data_answer := if String.eqb q_id "3" then "A" else "B" |};
  get_graph_solver := fun q_id =>
    Return (start (if String.eqb q_id "2" then 100%nat else 0%nat) None, "Find x");
  init_solve := fun s =>
    (Return tt,
     {| global_graph := global_graph s;
        reasoning_record := reasoning_record s;
        answer := if (global_graph s =? 100)%nat then Some 42 else None;
        is_updated := is_updated s;
        model_instance_eq_num := model_instance_eq_num s |});
  check_transformed_answer := fun a choices gt_id =>
    Return (bool_decide (choices !! Z.to_nat gt_id = Some a), a);
  solve_question := fun q_id =>
    if String.eqb q_id "6" then Raise (Exception "heuristic failed")
    else Return (yes_record q_id);
  diagram_logic_forms_json := {["1"; "2"; "3"; "4"; "5"; "6"]};
  text_logic_forms_json := {["1"; "2"; "3"; "4"; "5"; "6"]};
  error_ids := {["4"]};
|}.

Definition world0 : World := {| heap := []; map_dict := 0%nat; trace := [] |}.

Definition world1 : World :=
  {| heap := [start 0 None]; map_dict := 0%nat; trace := [] |}.

(** The first iteration of a search of width 3 from [world1]. *)
Definition first_iteration : Outcome Ctl * World :=
  beam_iter eval_py 3 (initial_frontier 0%nat) world1.

Definition first_pool : list Cand :=
  [{| c_hyp := 0%nat; c_theorem := 0%nat; c_score := -726817; c_steps := [0%nat] |};
   {| c_hyp := 0%nat; c_theorem := 1%nat; c_score := -1453634; c_steps := [1%nat] |};
   {| c_hyp := 0%nat; c_theorem := 2%nat; c_score := -2180451; c_steps := [2%nat] |}].

(** The candidate of the first pool whose application raises. *)
Definition failing : Cand :=
  {| c_hyp := 0%nat; c_theorem := 2%nat; c_score := -2180451; c_steps := [2%nat] |}.

Definition first_frontier : list Hyp :=
  [{| h_ref := 1%nat; h_score := -726824; h_steps := [0%nat] |}].

(** The second iteration, which finds the answer. *)
Definition second_pool : list Cand :=
  [{| c_hyp := 1%nat; c_theorem := 0%nat; c_score := -1453641; c_steps := [0%nat; 0%nat] |};
   {| c_hyp := 1%nat; c_theorem := 1%nat; c_score := -2180458; c_steps := [0%nat; 1%nat] |};
   {| c_hyp := 1%nat; c_theorem := 2%nat; c_score := -2907275; c_steps := [0%nat; 2%nat] |}].

Definition second_world : World :=
  snd (expand 3 first_frontier [] (snd first_iteration)).

Definition winner : Cand :=
  {| c_hyp := 1%nat; c_theorem := 0%nat; c_score := -1453641;
     c_steps := [0%nat; 0%nat] |}.

(** The clone kept by the first iteration, and the clone of it that
    carries the answer. *)
Definition hyp1 : HypState := snd (apply_model 0 (start 0 None)).

Definition hyp4 : HypState := snd (apply_model 0 hyp1).

Definition solver : EvalPy.AgentSolver :=
  {| EvalPy.max_step := 10; EvalPy.beam_size := 3 |}.
End Demo.

(** ** Exact arithmetic

    Scores as real numbers, with the natural logarithm and no rounding: the
    arithmetic that the floating-point operations approximate. *)

Module RealScores.
Definition real_domain : Domain := {|
  Score := R;
  flt := fun a b => if Rlt_dec a b then true else false;
  fle := fun a b => if Rle_dec a b then true else false;
  fadd := Rplus;
  np_log := ln;
  to_float32 := fun x => x;
  zero := 0%R;
  EPSILON := (1 / 100000)%R;
  Graph := nat;
  GraphData := nat;
  MapDict := nat;
  Answer := Z;
  GraphModel := nat;
  Target := string;
|}.
End RealScores.

(** * Further statements on the search *)

(** The instance [Demo] with an empty model pool: no theorem can be
    resolved. *)
Module EmptyPool.
#[local] Existing Instance Demo.domain.

#[export] Instance externals : Externals := {|
  to_dict := fun g => g;
  reparse_graph_data := fun gd md => (gd, S md);
  model_softmax := fun gd =>
    if (gd =? 7)%nat then Raise (Exception "inference failed")
    else Return [524288; 262144; 262139; 5];
  torch_sort := sort_by_insertion;
  torch_topk := topk_by_insertion;
  get_model := fun theorem => Raise (Exception "unknown model id");
  solve_with_one_model := Demo.apply_model;
|}.
End EmptyPool.

Module Failing.
(** A world whose only hypothesis makes the scorer of [Demo] raise. *)
Definition world7 : World :=
  {| heap := [Demo.start 7 None]; map_dict := 0%nat; trace := [] |}.
End Failing.

Module Rejected.
#[local] Existing Instances Demo.domain Demo.externals Demo.problems.

(** What [AgentSolver.solve] returns for problem 3 of [Demo], whose
    ground truth is not the answer that the search finds. *)
Definition record : ResultRecord :=
  {| r_id := IdStr "3"; r_target := Some "Find x"; r_answer := Some 42;
     r_step_lst := [ItemTheorem 0; ItemTheorem 0];
     r_model_instance_eq_num := Some 2;
     r_correctness := "no"; r_time := Some "0.1" |}.
End Rejected.

(** * Further statements on the orchestration *)

Section EventKinds.
Context `{D : Domain}.

(** The line that closes the handling of a problem in [eval.py]. *)
Definition is_final (ev : OEvent) : bool :=
  match ev with
  | LogIneligible | LogResult _ => true
  | _ => false
  end.

Definition is_start (ev : OEvent) : bool :=
  match ev with
  | ProcStart _ => true
  | _ => false
  end.
End EventKinds.

(** Where a run of [solve] of [app.py] stands, entered in the world [w]
    for the problem [q_id]. *)
Module AppPaths.
Section AppPaths.
Context `{X : Externals} `{P : @Problems D}.

(** [get_graph_solver] has returned the initial hypothesis, which is the
  new object at the address [length (heap w)], and [init_solve] has
  returned on it: [w1] is the world then, and [s] the state of the
  hypothesis in it. *)
Definition initialised (q_id : string) (w : World) (s : HypState) (w1 : World)
: Prop :=
exists created,
  get_graph_solver q_id = Return created /\
  call_init_solve (length (heap w)) (snd (alloc (fst created) w)) =
    (Return tt, w1) /\
  heap w1 !! length (heap w) = Some s.

(** The first test [if answer is not None: ... if correctness:] lets the
  run go on to the search: the hypothesis has no answer, or the verifier
  has returned on its answer and rejected it. *)
Definition direct_rejected (data : Data Choices) (code : Z) (s : HypState)
: Prop :=
match answer s with
| None => True
| Some a =>
    exists a', check_transformed_answer a (precise_value data) (code - 65) =
                 Return (false, a')
end.

(** The run has reached the call of [beam_search] on the initial
  hypothesis, which has returned [beam_search_res] and left the world
  [w2]. *)
Definition searched (q_id : string) (max_step beam_size : Z) (w : World)
  (data : Data Choices) (code : Z) (beam_search_res : BeamRes) (w2 : World)
: Prop :=
exists s w1,
  initialised q_id w s w1 /\
  direct_rejected data code s /\
  AppPy.beam_search (length (heap w)) max_step beam_size w1 =
    (Return beam_search_res, w2).
End AppPaths.
End AppPaths.

(** * The vocabularies

    [{line.strip(): i for i, line in enumerate(open(file).readlines())}], as
    [init_data_and_model] of [eval.py] and the head of [app.py] build the
    three vocabularies.  [strip] is the method of Python's strings, taken as
    it is.  The order of a dictionary plays no part in a vocabulary, which
    is only looked up and measured. *)

Module Vocab.
Section Vocab.
Variable strip : string -> string.

(** [enumerate(lines)] *)
Definition enumerate {A} (l : list A) : list (nat * A) := imap pair l.

Definition vocab (lines : list string) : gmap string nat :=
fold_left (fun d il => <[strip (snd il) := fst il]> d) (enumerate lines) ∅.

(** [len(vocab)], which [ModelArgs] receives as the number of node types,
  node attributes or edge attributes. *)
Definition vocab_size (lines : list string) : nat := size (vocab lines).
End Vocab.

(** Three lines that need no stripping, and the stripping that keeps them. *)
Definition sample : list string := ["Point"; "Line"; "Angle"].

Definition keep (line : string) : string := line.
End Vocab.

(** * The choice that the front-end proposes

    The end of [app.py]: the distances from the answer to the values of the
    choices are collected in [candi_answer], and the letter of the choice at
    [candi_answer.index(min(candi_answer))] is displayed.  [Num] stands for
    Python's floats, [lt] for [<] and [eqb] for [==] on them. *)

Module Display.
Section Display.
Variable Num : Type.
Variable lt : Num -> Num -> bool.
Variable eqb : Num -> Num -> bool.

(** [min(l)]: the first element that none of the following ones is
  below. *)
Definition py_min (l : list Num) : Outcome Num :=
match l with
| [] => Raise (Exception "min() arg is an empty sequence")
| x :: l' => Return (fold_left (fun m y => if lt y m then y else m) l' x)
end.

(** [l.index(v)] *)
Fixpoint py_index (l : list Num) (v : Num) : Outcome nat :=
match l with
| [] => Raise (Exception "x not in list")
| x :: l' =>
    if eqb x v then Return 0%nat
    else match py_index l' v with
         | Return i => Return (S i)
         | Raise e => Raise e
         end
end.

Definition choices_map : list string := ["A"; "B"; "C"; "D"].

(** [choices_map[candi_answer.index(min(candi_answer))]] *)
Definition closest (candi_answer : list Num) : Outcome string :=
match py_min candi_answer with
| Raise e => Raise e
| Return m =>
    match py_index candi_answer m with
    | Raise e => Raise e
    | Return i =>
        match choices_map !! i with
        | Some letter => Return letter
        | None => Raise IndexError
        end
    end
end.
End Display.
End Display.
(** * Properties *)

(** ** Elementary facts on the monad and on dictionaries *)

Section Basics.
Context `{X : Externals}.

Lemma bind_Return {A B} (m : M A) (k : A -> M B) w a w' :
  m w = (Return a, w') -> bind m k w = k a w'.
Proof. intros H. unfold bind. rewrite H. reflexivity. Qed.

Lemma bind_Raise {A B} (m : M A) (k : A -> M B) w e w' :
  m w = (Raise e, w') -> bind m k w = (Raise e, w').
Proof. intros H. unfold bind. rewrite H. reflexivity. Qed.

Lemma bind_inv_Return {A B} (m : M A) (k : A -> M B) w b w' :
  bind m k w = (Return b, w') ->
  exists a w1, m w = (Return a, w1) /\ k a w1 = (Return b, w').
Proof.
  unfold bind. destruct (m w) as [[a|e] w1]; intros H.
  - eauto.
  - discriminate.
Qed.

Lemma dict_set_fresh (d : list (nat * Score)) k v :
  k ∉ map fst d -> dict_set d k v = d ++ [(k, v)].
Proof.
  intros Hk. unfold dict_set.
  replace (existsb (fun kv => Nat.eqb (fst kv) k) d) with false; [done|].
  symmetry. apply not_true_is_false. intros H.
  apply existsb_exists in H as [[k' v'] [Hin Heq]].
  apply Nat.eqb_eq in Heq. simpl in Heq. subst k'.
  apply Hk. apply list_elem_of_In. apply in_map_iff.
  exists (k, v'). auto.
Qed.

Lemma dict_of_pairs_acc (pairs acc : list (nat * Score)) :
  NoDup (map fst (acc ++ pairs)) ->
  fold_left (fun d kv => dict_set d (fst kv) (snd kv)) pairs acc = acc ++ pairs.
Proof.
  revert acc. induction pairs as [|[k v] pairs IH]; intros acc Hnd; simpl.
  - by rewrite app_nil_r.
  - rewrite dict_set_fresh.
    + rewrite IH; rewrite <- app_assoc; done.
    + rewrite map_app in Hnd. simpl in Hnd.
      apply NoDup_app in Hnd as (_ & Hdisj & _).
      intros Hin. apply (Hdisj k Hin). left.
Qed.

(** With distinct keys the comprehension keeps every pair, in order. *)
Lemma dict_of_pairs_NoDup (pairs : list (nat * Score)) :
  NoDup (map fst pairs) -> dict_of_pairs pairs = pairs.
Proof. intros H. unfold dict_of_pairs. by rewrite dict_of_pairs_acc. Qed.

Lemma theorem_pred_heap a w o w' :
  theorem_pred a w = (o, w') -> heap w' = heap w.
Proof.
  unfold theorem_pred, bind, emit, read, get_map_dict, set_map_dict, lift, ret.
  simpl. destruct (heap w !! a) as [s|]; simpl.
  - destruct (model_softmax _) as [score|e]; intros [= <- <-]; reflexivity.
  - intros [= <- <-]. reflexivity.
Qed.

(** The dictionary of a prediction is in the order of [torch.sort]. *)
Lemma theorem_pred_descending a w d w' :
  sort_contract -> theorem_pred a w = (Return d, w') ->
  descending (map snd d).
Proof.
  intros Hsort.
  unfold theorem_pred, bind, emit, read, get_map_dict, set_map_dict, lift, ret.
  simpl. destruct (heap w !! a) as [s|]; simpl; [|discriminate].
  destruct (model_softmax _) as [score|e]; [|discriminate].
  intros [= <- <-].
  destruct (Hsort score) as (Hlen & Hnd & Hdesc).
  rewrite dict_of_pairs_NoDup.
  - change (map snd ?l) with (l.*2). rewrite snd_zip; [done|lia].
  - change (map fst ?l) with (l.*1). rewrite fst_zip; [done|lia].
Qed.
End Basics.

(** ** The candidate pool *)

Section Pool.
Context `{X : Externals}.

Lemma expand_ranks_spec d hyp ranks : forall pool pool',
  expand_ranks d hyp ranks pool = Return pool' ->
  exists new,
    pool' = pool ++ new /\
    (length new <= length ranks)%nat /\
    Forall (fun c => exists i p,
              i ∈ ranks /\ d !! i = Some (c_theorem c, p) /\
              flt p EPSILON = false /\
              c_hyp c = h_ref hyp /\
              c_score c = fadd (h_score hyp) (np_log p) /\
              c_steps c = h_steps hyp ++ [c_theorem c]) new.
Proof.
  induction ranks as [|i ranks IH]; intros pool pool' H; simpl in H.
  - injection H as <-. exists []. rewrite app_nil_r. repeat split; [simpl; lia|constructor].
  - destruct (d !! i) as [[theorem cur_score]|] eqn:Hd; [|discriminate].
    destruct (flt cur_score EPSILON) eqn:Hlt.
    + apply IH in H as (new & -> & Hlen & Hall).
      exists new. repeat split; [simpl; lia|].
      eapply Forall_impl; [exact Hall|].
      intros c (j & p & Hj & Hrest). exists j, p. split; [by right|exact Hrest].
    + apply IH in H as (new & -> & Hlen & Hall).
      eexists (_ :: new). rewrite <- app_assoc. simpl. repeat split; [lia|].
      constructor.
      * exists i, cur_score. simpl. repeat split; try done. by left.
      * eapply Forall_impl; [exact Hall|].
        intros c (j & p & Hj & Hrest). exists j, p. split; [by right|exact Hrest].
Qed.

Lemma expand_spec beam_size hypotheses : forall pool w pool' w',
  expand beam_size hypotheses pool w = (Return pool', w') ->
  exists new,
    pool' = pool ++ new /\
    (length new <= Z.to_nat beam_size * length hypotheses)%nat /\
    Forall (generated beam_size hypotheses) new /\
    heap w' = heap w.
Proof.
  induction hypotheses as [|hyp rest IH]; intros pool w pool' w' H; simpl in H.
  - injection H as <- <-. exists []. rewrite app_nil_r.
    repeat split; [simpl; lia|constructor].
  - apply bind_inv_Return in H as (d & w1 & Hpred & H).
    apply bind_inv_Return in H as (pool1 & w2 & Hranks & H).
    unfold lift in Hranks.
    destruct (expand_ranks d hyp (seq 0 (Z.to_nat beam_size)) pool) as [pl|e] eqn:Hr;
      [|discriminate].
    injection Hranks as -> ->.
    apply expand_ranks_spec in Hr as (new1 & -> & Hlen1 & Hall1).
    apply IH in H as (new2 & -> & Hlen2 & Hall2 & Hheap).
    rewrite length_seq in Hlen1.
    exists (new1 ++ new2). rewrite app_assoc. repeat split.
    + rewrite length_app. simpl. lia.
    + apply Forall_app. split.
      * eapply Forall_impl; [exact Hall1|].
        intros c (i & p & Hi & Hd & Hrest).
        exists hyp, p. split; [by left|].
        exists d, i, w, w2. repeat split; try tauto.
        apply elem_of_seq in Hi. lia.
      * eapply Forall_impl; [exact Hall2|].
        intros c (h & p & Hh & Hg). exists h, p. split; [by right|done].
    + rewrite Hheap. eapply theorem_pred_heap. exact Hpred.
Qed.

(** The loop over the ranks in closed form: it raises [IndexError] exactly
    when a rank to read is past the end of the dictionary. *)
Lemma expand_ranks_closed d hyp k : forall a pool,
  expand_ranks d hyp (seq a k) pool =
    if bool_decide (k = 0 \/ a + k <= length d)%nat
    then Return (pool ++ candidates_of hyp (take k (drop a d)))
    else Raise IndexError.
Proof.
  induction k as [|k IH]; intros a pool; cbn [seq expand_ranks].
  - case_bool_decide as H0; [|exfalso; apply H0; by left].
    by rewrite app_nil_r.
  - destruct (d !! a) as [[theorem cur_score]|] eqn:Hd.
    + pose proof (lookup_lt_Some _ _ _ Hd) as Hlt.
      rewrite (drop_S _ _ _ Hd). cbn [take omap list_omap candidates_of].
      unfold candidates_of. cbn [omap list_omap fst snd].
      fold (candidates_of hyp (take k (drop (S a) d))).
      assert (Hiff : (k = 0 \/ S a + k <= length d)%nat <->
                     (S k = 0 \/ a + S k <= length d)%nat) by lia.
      destruct (flt cur_score EPSILON) eqn:Hflt; rewrite IH;
        rewrite (bool_decide_ext _ _ Hiff);
        destruct (bool_decide _); try reflexivity.
      by rewrite <- app_assoc.
    + apply lookup_ge_None in Hd.
      case_bool_decide as H1; [exfalso; lia|done].
Qed.

(** The first loop in closed form: the dictionaries are those that the
    calls of the scorer return, in the order of the frontier and from the
    world in which the iteration is entered. *)
Lemma expand_predictions beam_size hypotheses : forall pool0 w pool w',
  expand beam_size hypotheses pool0 w = (Return pool, w') ->
  exists dicts,
    predictions hypotheses w = (Return dicts, w') /\
    Forall (fun d => (Z.to_nat beam_size = 0 \/ Z.to_nat beam_size <= length d)%nat)
           dicts /\
    pool = pool0 ++
           concat (zip_with (fun h d => candidates_of h (take (Z.to_nat beam_size) d))
                     hypotheses dicts).
Proof.
  induction hypotheses as [|h rest IH]; intros pool0 w pool w' H; simpl in H.
  - injection H as <- <-. exists []. split_and!; [done|constructor|].
    simpl. by rewrite app_nil_r.
  - apply bind_inv_Return in H as (d & w1 & Hpred & H).
    apply bind_inv_Return in H as (pool1 & w2 & Hranks & H).
    unfold lift in Hranks. rewrite expand_ranks_closed in Hranks.
    case_bool_decide as Hlen; [|discriminate].
    injection Hranks as <- <-.
    apply IH in H as (dicts & Hrest & Hall & ->).
    exists (d :: dicts). split_and!.
    + cbn [predictions]. unfold bind. rewrite Hpred, Hrest. reflexivity.
    + constructor; [lia|exact Hall].
    + simpl. rewrite drop_0. by rewrite <- app_assoc.
Qed.

Lemma predictions_length hypotheses : forall w dicts w',
  predictions hypotheses w = (Return dicts, w') ->
  length dicts = length hypotheses.
Proof.
  induction hypotheses as [|h rest IH]; intros w dicts w' H; cbn [predictions] in H.
  - by injection H as <- _.
  - apply bind_inv_Return in H as (d & w1 & _ & H).
    apply bind_inv_Return in H as (ds & w2 & Hrest & H).
    injection H as <- _. simpl. f_equal. by eapply IH.
Qed.

Lemma predictions_descending hypotheses : forall w dicts w',
  sort_contract ->
  predictions hypotheses w = (Return dicts, w') ->
  Forall (fun d => descending (map snd d)) dicts.
Proof.
  induction hypotheses as [|h rest IH]; intros w dicts w' Hsort H;
    cbn [predictions] in H.
  - injection H as <- _. constructor.
  - apply bind_inv_Return in H as (d & w1 & Hpred & H).
    apply bind_inv_Return in H as (ds & w2 & Hrest & H).
    injection H as <- _. constructor.
    + by eapply theorem_pred_descending.
    + by eapply IH.
Qed.

Lemma candidates_of_elem hyp entries c :
  c ∈ candidates_of hyp entries ->
  exists i p,
    entries !! i = Some (c_theorem c, p) /\
    flt p EPSILON = false /\
    c_hyp c = h_ref hyp /\
    c_score c = fadd (h_score hyp) (np_log p) /\
    c_steps c = h_steps hyp ++ [c_theorem c].
Proof.
  unfold candidates_of. intros Hc.
  apply list_elem_of_omap in Hc as ([theorem p] & Hin & Hsome).
  apply list_elem_of_lookup in Hin as [i Hi].
  simpl in Hsome. destruct (flt p EPSILON) eqn:Hp; [discriminate|].
  injection Hsome as <-. exists i, p. by simpl.
Qed.

Lemma pool_formed beam_size hypotheses dicts c :
  c ∈ concat (zip_with (fun h d => candidates_of h (take (Z.to_nat beam_size) d))
                hypotheses dicts) ->
  formed beam_size hypotheses dicts c.
Proof.
  intros Hc. apply list_elem_of_In, in_concat in Hc as (l & Hl & Hc).
  apply list_elem_of_In in Hl, Hc.
  apply list_elem_of_lookup in Hl as [j Hj].
  apply lookup_zip_with_Some in Hj as (hyp & d & -> & Hhyp & Hd).
  apply candidates_of_elem in Hc as (i & p & Hi & Hrest).
  apply lookup_take_Some in Hi as [Hi Hlt].
  exists j, hyp, d, p. split_and!; [done|done|].
  exists i. destruct Hrest as (? & ? & ? & ?). by split_and!.
Qed.

Lemma select_spec beam_size pool :
  topk_contract ->
  (length (select beam_size pool) <= Z.to_nat beam_size)%nat /\
  Forall (fun top => exists c,
            pool !! fst top = Some c /\ snd top = to_float32 (c_score c))
         (select beam_size pool).
Proof.
  intros Htopk. unfold select.
  set (t := torch_Tensor (map c_score pool)).
  set (k := Z.to_nat (Z.min beam_size (Z.of_nat (length t)))).
  assert (Hk : (k <= length t)%nat) by (unfold k; lia).
  destruct (Htopk t k Hk) as (Hlv & Hli & Hval).
  split.
  - rewrite length_zip_with, Hlv, Hli. unfold k. lia.
  - apply Forall_forall. intros [pos sc] Hin.
    apply list_elem_of_lookup in Hin as [j Hj].
    apply lookup_zip_with_Some in Hj as (pos' & sc' & [= <- <-] & Hpos & Hsc).
    destruct (Hval j pos Hpos) as (v & Htv & Hv).
    rewrite Hsc in Hv. injection Hv as ->.
    unfold t, torch_Tensor in Htv.
    rewrite !list_lookup_fmap in Htv.
    destruct (pool !! pos) as [c|] eqn:Hc; [|discriminate].
    simpl in Htv. injection Htv as <-. exists c. done.
Qed.
End Pool.

(** ** One pass of the second loop *)

Section Visit.
Context `{X : Externals}.

Lemma insert_last {A} (l : list A) (x y : A) :
  <[length l := y]> (l ++ [x]) = l ++ [y].
Proof.
  rewrite insert_app_r_alt by lia. by rewrite Nat.sub_diag.
Qed.

Lemma lookup_last {A} (l : list A) (x : A) : (l ++ [x]) !! length l = Some x.
Proof. rewrite lookup_app_r by lia. by rewrite Nat.sub_diag. Qed.

(** [visit] in closed form. *)
Lemma visit_eq script pool cand_hyp_id cand_hyp_score w c s :
  pool !! cand_hyp_id = Some c ->
  heap w !! c_hyp c = Some s ->
  visit script pool cand_hyp_id cand_hyp_score w =
    (Return
       match attempt (c_theorem c) s with
       | Updated s' =>
           match answer s' with
           | Some a =>
               Answered {| res_answer := Some a;
                           res_step_lst := answer_steps script (c_steps c) s';
                           res_model_instance_eq_num :=
                             Some (model_instance_eq_num s') |}
           | None =>
               Kept {| h_ref := length (heap w);
                       h_score := cand_hyp_score;
                       h_steps := c_steps c |}
           end
       | _ => Dropped
       end,
     visited w c s).
Proof.
  intros Hc Hs. unfold visit, visited, attempt. rewrite Hc.
  unfold deepcopy, apply_theorem, call_solve_with_one_model, try_except,
    bind, read, write, alloc, emit, lift, ret.
  simpl. rewrite Hs. simpl.
  destruct (get_model (c_theorem c)) as [graph_model|e]; simpl.
  - rewrite lookup_last. simpl.
    destruct (solve_with_one_model graph_model s) as [[[]|e] s'] eqn:Happ; simpl.
    + rewrite insert_last, lookup_last. simpl.
      destruct (is_updated s'); simpl.
      * rewrite lookup_last.
        destruct (answer s'); simpl; rewrite <- !app_assoc; reflexivity.
      * rewrite <- !app_assoc. reflexivity.
    + rewrite insert_last, <- !app_assoc. reflexivity.
  - rewrite <- !app_assoc. reflexivity.
Qed.

(** Whatever [visit] does, the objects of the heap it starts from are
    still there, in the same state. *)
Lemma visit_prefix script pool cand_hyp_id cand_hyp_score w o w' :
  visit script pool cand_hyp_id cand_hyp_score w = (o, w') ->
  heap w `prefix_of` heap w'.
Proof.
  intros H.
  destruct (pool !! cand_hyp_id) as [c|] eqn:Hc.
  - destruct (heap w !! c_hyp c) as [s|] eqn:Hs.
    + rewrite (visit_eq _ _ _ _ _ _ _ Hc Hs) in H. injection H as _ <-.
      unfold visited. destruct (attempt _ _); simpl; by apply prefix_app_r.
    + unfold visit in H. rewrite Hc in H.
      unfold deepcopy, bind, read in H. rewrite Hs in H. by injection H as _ <-.
  - unfold visit in H. rewrite Hc in H. by injection H as _ <-.
Qed.

Lemma advance_prefix script pool top : forall new w o w',
  advance script pool top new w = (o, w') -> heap w `prefix_of` heap w'.
Proof.
  induction top as [|[cand_hyp_id cand_hyp_score] top IH]; intros new w o w' H;
    simpl in H.
  - by injection H as _ <-.
  - unfold bind in H.
    destruct (visit script pool cand_hyp_id cand_hyp_score w) as [[r|e] w1] eqn:Hv.
    + apply visit_prefix in Hv.
      destruct r as [|res|h].
      * etrans; [exact Hv|]. eapply IH, H.
      * by injection H as _ <-.
      * etrans; [exact Hv|]. eapply IH, H.
    + apply visit_prefix in Hv. by injection H as _ <-.
Qed.

Lemma advance_app script pool pre : forall rest new w new1 w1,
  advance script pool pre new w = (Return (Continue new1), w1) ->
  advance script pool (pre ++ rest) new w = advance script pool rest new1 w1.
Proof.
  induction pre as [|[cand_hyp_id cand_hyp_score] pre IH]; intros rest new w new1 w1 H;
    simpl in *.
  - by injection H as <- <-.
  - unfold bind in *.
    destruct (visit script pool cand_hyp_id cand_hyp_score w) as [[r|e] w2];
      [|discriminate].
    destruct r as [|res|h]; [by apply IH|discriminate|by apply IH].
Qed.

Lemma advance_length script pool top : forall new w new' w',
  advance script pool top new w = (Return (Continue new'), w') ->
  (length new' <= length new + length top)%nat.
Proof.
  induction top as [|[cand_hyp_id cand_hyp_score] top IH]; intros new w new' w' H;
    simpl in H.
  - injection H as <- <-. lia.
  - unfold bind in H.
    destruct (visit script pool cand_hyp_id cand_hyp_score w) as [[r|e] w1];
      [|discriminate].
    destruct r as [|res|h]; [|discriminate|].
    + apply IH in H. simpl. lia.
    + apply IH in H. rewrite length_app in H. simpl in *. lia.
Qed.
End Visit.

(** ** The reference selection meets the contracts *)

Section SelectionFacts.
Context `{D : Domain}.

Lemma insert_desc_perm x l : insert_desc x l ≡ₚ x :: l.
Proof.
  induction l as [|y l IH]; simpl; [done|].
  destruct (flt (fst y) (fst x)); [done|].
  rewrite IH. apply Permutation_swap.
Qed.

Lemma sort_desc_acc_perm l : forall acc,
  fold_left (fun acc x => insert_desc x acc) l acc ≡ₚ l ++ acc.
Proof.
  induction l as [|x l IH]; intros acc; simpl; [done|].
  rewrite IH, insert_desc_perm. by rewrite Permutation_middle.
Qed.

Lemma sort_desc_perm l : sort_desc l ≡ₚ l.
Proof. unfold sort_desc. rewrite sort_desc_acc_perm. by rewrite app_nil_r. Qed.

Lemma indexed_lookup (t : list Score) v i :
  (v, i) ∈ indexed t -> t !! i = Some v.
Proof.
  unfold indexed. intros Hin.
  apply list_elem_of_lookup in Hin as [j Hj].
  apply lookup_zip_with_Some in Hj as (v' & i' & [= <- <-] & Hv & Hi).
  apply lookup_seq in Hi as [-> _]. done.
Qed.

Lemma indexed_length (t : list Score) : length (indexed t) = length t.
Proof. unfold indexed. rewrite length_zip_with, length_seq. lia. Qed.

Lemma topk_by_insertion_spec (t : list Score) (k : nat) :
  (k <= length t)%nat ->
  length (fst (topk_by_insertion t k)) = k /\
  length (snd (topk_by_insertion t k)) = k /\
  forall j i, snd (topk_by_insertion t k) !! j = Some i ->
    exists v, t !! i = Some v /\ fst (topk_by_insertion t k) !! j = Some v.
Proof.
  intros Hk. unfold topk_by_insertion. simpl.
  assert (Hlen : length (take k (sort_desc (indexed t))) = k).
  { rewrite length_take, (Permutation_length (sort_desc_perm _)), indexed_length. lia. }
  rewrite !length_map, Hlen. repeat split.
  intros j i Hj.
  change (map snd ?l) with (snd <$> l) in Hj.
  change (map fst ?l) with (fst <$> l).
  rewrite list_lookup_fmap in Hj. rewrite list_lookup_fmap.
  destruct (take k (sort_desc (indexed t)) !! j) as [[v i']|] eqn:Hl; [|discriminate].
  simpl in Hj. injection Hj as ->.
  exists v. split; [|done].
  apply indexed_lookup.
  rewrite <- (sort_desc_perm (indexed t)).
  apply list_elem_of_lookup_2 in Hl. eapply subseteq_take, Hl.
Qed.

Section Sorted.
Hypothesis flt_fle : forall a b : Score, flt a b = true -> fle a b = true.
Hypothesis nlt_fle : forall a b : Score, flt a b = false -> fle b a = true.
Hypothesis fle_trans :
  forall a b c : Score, fle a b = true -> fle b c = true -> fle a c = true.

Lemma insert_desc_sorted x l :
  StronglySorted before l -> StronglySorted before (insert_desc x l).
Proof.
  induction 1 as [|y l Hl IH Hy]; simpl.
  - repeat constructor.
  - destruct (flt (fst y) (fst x)) eqn:Hlt.
    + constructor; [by constructor|].
      constructor; [by apply flt_fle|].
      eapply Forall_impl; [exact Hy|].
      intros z Hz. unfold before in *. eapply fle_trans; [exact Hz|by apply flt_fle].
    + constructor; [exact IH|].
      rewrite insert_desc_perm. constructor; [by apply nlt_fle|exact Hy].
Qed.

Lemma sort_desc_sorted l : StronglySorted before (sort_desc l).
Proof.
  unfold sort_desc.
  assert (H : StronglySorted before []) by constructor.
  revert H. generalize (@nil (Score * nat)).
  induction l as [|x l IH]; intros acc Hacc; simpl; [done|].
  apply IH. by apply insert_desc_sorted.
Qed.

Lemma fle_refl (a : Score) : fle a a = true.
Proof. destruct (flt a a) eqn:H; [by apply flt_fle|by apply nlt_fle]. Qed.

Lemma sorted_descending l :
  StronglySorted before l -> forall i j p q,
    (i <= j)%nat -> (map fst l) !! i = Some p -> (map fst l) !! j = Some q ->
    fle q p = true.
Proof.
  induction 1 as [|y l Hl IH Hy]; intros i j p q Hij Hi Hj; [done|].
  destruct i as [|i], j as [|j]; simpl in *; try lia.
  - injection Hi as <-. injection Hj as <-. apply fle_refl.
  - injection Hi as <-.
    change (map fst l) with (fst <$> l) in Hj.
    rewrite list_lookup_fmap in Hj.
    destruct (l !! j) as [z|] eqn:Hz; [|discriminate].
    injection Hj as <-.
    apply list_elem_of_lookup_2 in Hz.
    rewrite Forall_forall in Hy. by apply Hy.
  - eapply (IH i j); [lia|done|done].
Qed.

Lemma sort_by_insertion_spec (t : list Score) :
  length (fst (sort_by_insertion t)) = length (snd (sort_by_insertion t)) /\
  NoDup (snd (sort_by_insertion t)) /\
  forall i j p q, (i <= j)%nat ->
    fst (sort_by_insertion t) !! i = Some p ->
    fst (sort_by_insertion t) !! j = Some q -> fle q p = true.
Proof.
  unfold sort_by_insertion. simpl. repeat split.
  - by rewrite !length_map.
  - change (map snd ?l) with (l.*2).
    rewrite (sort_desc_perm (indexed t)). unfold indexed.
    rewrite snd_zip by (rewrite length_seq; lia). apply NoDup_seq.
  - apply sorted_descending, sort_desc_sorted.
Qed.
End Sorted.
End SelectionFacts.

Lemma demo_topk_contract : @topk_contract Demo.domain Demo.externals.
Proof. intros t k Hk. apply (topk_by_insertion_spec t k Hk). Qed.

Lemma demo_sort_contract : @sort_contract Demo.domain Demo.externals.
Proof.
  intros t. apply (sort_by_insertion_spec (D := Demo.domain)); simpl; intros; lia.
Qed.

(** ** C1: the width of the beam *)

Section Width.
Context `{X : Externals}.

Lemma beam_iter_width script beam_size hypotheses w new_hypotheses w' :
  topk_contract ->
  beam_iter script beam_size hypotheses w = (Return (Continue new_hypotheses), w') ->
  Z.of_nat (length new_hypotheses) <= beam_size.
Proof.
  intros Htopk H. unfold beam_iter in H.
  destruct (Z.of_nat (length hypotheses) <=? beam_size) eqn:Hle; [|discriminate].
  apply Z.leb_le in Hle.
  apply bind_inv_Return in H as (pool & w1 & _ & H).
  apply advance_length in H.
  pose proof (select_spec beam_size pool Htopk) as [Hsel _].
  simpl in H. lia.
Qed.
End Width.

(** C1.  In every run of the beam search with a beam size of at least 1, at
    every iteration boundary (the start of the search and the end of every
    iteration that did not return) the number of active hypotheses is at
    most the beam size: the initial frontier has one hypothesis, and an
    iteration keeps at most as many candidates as [torch.topk] selects,
    which are at most [min(beam_size, size of the pool)]. *)
Theorem C1_beam_width `{X : Externals} script beam_size graph_solver w0 w hypotheses :
  1 <= beam_size ->
  topk_contract ->
  boundary script beam_size graph_solver w0 w hypotheses ->
  Z.of_nat (length hypotheses) <= beam_size.
Proof.
  intros Hbs Htopk Hb. induction Hb as [|w hyps w' hyps' _ _ Hiter].
  - simpl. lia.
  - eapply beam_iter_width; eauto.
Qed.

Lemma C1_beam_width_witness :
  Z.of_nat (length Demo.first_frontier) <= 3.
Proof.
  apply (C1_beam_width (X := Demo.externals) eval_py 3 0%nat Demo.world1
           (snd Demo.first_iteration)).
  - lia.
  - exact demo_topk_contract.
  - eapply boundary_next; [apply boundary_start|]. vm_compute. reflexivity.
Defined.

(** ** C2: what enters the pool *)

(** C2.  In an iteration, the scorer is called once on every hypothesis of
    the frontier, in order, from the world in which the iteration is
    entered, and changes no object.  The candidates formed for a hypothesis
    stand at the ranks below [beam_size] of the dictionary that this call
    has returned for it, which is in descending order of probability; a
    candidate whose probability is below [EPSILON] is not formed.  Hence no
    candidate of the pool, and none that [torch.topk] selects from it, has
    a probability below [EPSILON], and the pool has at most [beam_size]
    times as many candidates as there are active hypotheses. *)
Theorem C2_candidate_pool `{X : Externals} beam_size hypotheses w pool w' :
  topk_contract ->
  sort_contract ->
  expand beam_size hypotheses [] w = (Return pool, w') ->
  exists dicts,
    predictions hypotheses w = (Return dicts, w') /\
    heap w' = heap w /\
    length dicts = length hypotheses /\
    Forall (fun d => descending (map snd d)) dicts /\
    (length pool <= Z.to_nat beam_size * length hypotheses)%nat /\
    Forall (formed beam_size hypotheses dicts) pool /\
    Forall (fun top => exists c, pool !! fst top = Some c /\
                                 formed beam_size hypotheses dicts c)
           (select beam_size pool).
Proof.
  intros Htopk Hsort H.
  destruct (expand_spec _ _ _ _ _ _ H) as (new & Hnew & Hlen & _ & Hheap).
  simpl in Hnew. subst new.
  apply expand_predictions in H as (dicts & Hpred & _ & Hpool). simpl in Hpool.
  assert (Hformed : Forall (formed beam_size hypotheses dicts) pool).
  { apply Forall_forall. intros c Hc. apply pool_formed. by rewrite <- Hpool. }
  exists dicts. split_and!; try done.
  - by eapply predictions_length.
  - by eapply predictions_descending.
  - pose proof (select_spec beam_size pool Htopk) as [_ Hsel].
    eapply Forall_impl; [exact Hsel|].
    intros top (c & Hc & _). exists c. split; [done|].
    rewrite Forall_forall in Hformed. apply Hformed.
    by apply list_elem_of_lookup_2 in Hc.
Qed.

Section C2_witness.
#[local] Existing Instances Demo.domain Demo.externals.

Lemma C2_candidate_pool_witness :
  exists dicts,
    predictions (initial_frontier 0%nat) Demo.world1 =
      (Return dicts, snd (expand 3 (initial_frontier 0%nat) [] Demo.world1)) /\
    heap (snd (expand 3 (initial_frontier 0%nat) [] Demo.world1)) =
      heap Demo.world1 /\
    length dicts = length (initial_frontier 0%nat) /\
    Forall (fun d => descending (map snd d)) dicts /\
    (length Demo.first_pool <= Z.to_nat 3 * length (initial_frontier 0%nat))%nat /\
    Forall (formed 3 (initial_frontier 0%nat) dicts) Demo.first_pool /\
    Forall (fun top => exists c, Demo.first_pool !! fst top = Some c /\
                                 formed 3 (initial_frontier 0%nat) dicts c)
           (select 3 Demo.first_pool).
Proof.
  apply (C2_candidate_pool 3 (initial_frontier 0%nat)
           Demo.world1 Demo.first_pool
           (snd (expand 3 (initial_frontier 0%nat) [] Demo.world1))).
  - exact demo_topk_contract.
  - exact demo_sort_contract.
  - vm_compute. reflexivity.
Defined.
End C2_witness.

(** ** C7: no iteration *)

(** C7.  With [max_step = 0] the search returns the empty result (no answer,
    an empty step list, no equation count) and leaves the world as it is:
    in particular the scorer, whose calls the trace records, is not
    called. *)
Theorem C7_no_iteration `{X : Externals} beam_size graph_solver w :
  EvalPy.beam_search {| EvalPy.max_step := 0; EvalPy.beam_size := beam_size |}
    graph_solver w = (Return empty_res, w) /\
  AppPy.beam_search graph_solver 0 beam_size w = (Return empty_res, w) /\
  predicted (snd (EvalPy.beam_search
                    {| EvalPy.max_step := 0; EvalPy.beam_size := beam_size |}
                    graph_solver w)) = predicted w /\
  predicted (snd (AppPy.beam_search graph_solver 0 beam_size w)) = predicted w.
Proof. repeat split. Qed.

(** ** C3: the first answer ends the search *)

Section Answer.
Context `{X : Externals}.

Lemma beam_iter_eq script beam_size hypotheses w0 pool w :
  Z.of_nat (length hypotheses) <= beam_size ->
  expand beam_size hypotheses [] w0 = (Return pool, w) ->
  beam_iter script beam_size hypotheses w0 =
    advance script pool (select beam_size pool) [] w.
Proof.
  intros Hle Hexp. unfold beam_iter.
  apply Z.leb_le in Hle. rewrite Hle.
  by rewrite (bind_Return _ _ _ _ _ Hexp).
Qed.

Lemma visited_heap w c s s' :
  attempt (c_theorem c) s = Updated s' ->
  heap (visited w c s) = heap w ++ [s'].
Proof. intros H. unfold visited. by rewrite H. Qed.
End Answer.

(** C3, as the code has it.  Let the candidates selected before a
    candidate [c] yield no answer, and let the clone made for [c] carry the
    answer [a] once the theorem of [c] has been applied to it with an
    update.  Then the search returns at once, whatever the number of
    remaining iterations and whatever candidates were selected after [c],
    which are not visited: the world is the one that the visit of [c]
    leaves.  The result holds the answer and the equation count of the
    clone; its step list is the reasoning record of the clone in [app.py],
    and the theorem identifiers on the path to the clone in [eval.py]. *)
Theorem C3_first_answer_returned `{X : Externals} script beam_size remaining
    hypotheses w0 pool w pre cand_hyp_id cand_hyp_score post new1 w1 c s s' a :
  Z.of_nat (length hypotheses) <= beam_size ->
  expand beam_size hypotheses [] w0 = (Return pool, w) ->
  select beam_size pool = pre ++ (cand_hyp_id, cand_hyp_score) :: post ->
  advance script pool pre [] w = (Return (Continue new1), w1) ->
  pool !! cand_hyp_id = Some c ->
  heap w1 !! c_hyp c = Some s ->
  attempt (c_theorem c) s = Updated s' ->
  answer s' = Some a ->
  while_loop script beam_size (S remaining) hypotheses w0 =
    (Return {| res_answer := Some a;
               res_step_lst :=
                 match script with
                 | eval_py => map ItemTheorem (c_steps c)
                 | app_py => map ItemStep (reasoning_record s')
                 end;
               res_model_instance_eq_num := Some (model_instance_eq_num s') |},
     visited w1 c s) /\
  heap (visited w1 c s) = heap w1 ++ [s'].
Proof.
  intros Hle Hexp Hsel Hpre Hc Hs Hatt Ha. split; [|by apply visited_heap].
  simpl. unfold bind at 1.
  rewrite (beam_iter_eq _ _ _ _ _ _ Hle Hexp), Hsel.
  rewrite (advance_app _ _ _ _ _ _ _ _ Hpre). simpl.
  unfold bind at 1. rewrite (visit_eq _ _ _ _ _ _ _ Hc Hs), Hatt, Ha.
  unfold ret. destruct script; reflexivity.
Qed.

Section C3_demo.
#[local] Existing Instances Demo.domain Demo.externals.

Lemma C3_first_answer_returned_witness :
  while_loop app_py 3 5 Demo.first_frontier (snd Demo.first_iteration) =
    (Return {| res_answer := Some 42;
               res_step_lst := map ItemStep (reasoning_record Demo.hyp4);
               res_model_instance_eq_num := Some (model_instance_eq_num Demo.hyp4) |},
     visited Demo.second_world Demo.winner Demo.hyp1) /\
  heap (visited Demo.second_world Demo.winner Demo.hyp1) =
    heap Demo.second_world ++ [Demo.hyp4].
Proof.
  apply (C3_first_answer_returned app_py 3 4 Demo.first_frontier
           (snd Demo.first_iteration) Demo.second_pool Demo.second_world
           [] 0%nat (-1453648) [(1%nat, -2180464); (2%nat, -2907280)] []
           Demo.second_world Demo.winner Demo.hyp1 Demo.hyp4 42).
  - simpl. lia.
  - vm_compute. reflexivity.
  - vm_compute. reflexivity.
  - reflexivity.
  - reflexivity.
  - vm_compute. reflexivity.
  - vm_compute. reflexivity.
  - reflexivity.
Defined.

(** In [eval.py] the step list returned with the answer is not the
    reasoning record of the hypothesis that carries it. *)
Lemma C3_counterexample :
  exists res w' s,
    EvalPy.beam_search Demo.solver 0%nat Demo.world1 = (Return res, w') /\
    last (heap w') = Some s /\
    res_answer res = answer s /\
    res_answer res = Some 42 /\
    res_step_lst res = [ItemTheorem 0; ItemTheorem 0] /\
    reasoning_record s = [Demo.a_step 1; Demo.a_step 3] /\
    res_step_lst res <> map ItemStep (reasoning_record s).
Proof.
  eexists _, _, _. split; [vm_compute; reflexivity|].
  split; [vm_compute; reflexivity|].
  repeat split; try (vm_compute; reflexivity).
  vm_compute. discriminate.
Qed.
End C3_demo.

(** ** C4: a failed application drops one candidate *)

Section Drop.
Context `{X : Externals}.

Lemma logged_visited w c s :
  logged (visited w c s) =
    logged w ++ match attempt (c_theorem c) s with
                | ResolutionFails e | ApplicationFails e _ => [e]
                | NoOp _ | Updated _ => []
                end.
Proof.
  unfold logged, visited.
  destruct (attempt (c_theorem c) s); simpl; by rewrite omap_app.
Qed.
End Drop.

(** C4, as the code has it.  When the resolution of the theorem of a
    selected candidate raises, or its application raises, or the
    application returns without an update, the visit of the candidate
    raises nothing and returns nothing: the loop goes on with the
    candidates selected after it, from the same list of new hypotheses, so
    that only this candidate is missing in the next frontier.  An exception
    is sent to the logger; an application without an update is not
    logged. *)
Theorem C4_failed_candidate_dropped `{X : Externals} script pool cand_hyp_id
    cand_hyp_score rest new_hypotheses w c s :
  pool !! cand_hyp_id = Some c ->
  heap w !! c_hyp c = Some s ->
  (forall s', attempt (c_theorem c) s <> Updated s') ->
  visit script pool cand_hyp_id cand_hyp_score w = (Return Dropped, visited w c s) /\
  advance script pool ((cand_hyp_id, cand_hyp_score) :: rest) new_hypotheses w =
    advance script pool rest new_hypotheses (visited w c s) /\
  logged (visited w c s) =
    logged w ++ match attempt (c_theorem c) s with
                | ResolutionFails e | ApplicationFails e _ => [e]
                | NoOp _ | Updated _ => []
                end.
Proof.
  intros Hc Hs Hfail.
  assert (Hv : visit script pool cand_hyp_id cand_hyp_score w =
               (Return Dropped, visited w c s)).
  { rewrite (visit_eq _ _ _ _ _ _ _ Hc Hs).
    destruct (attempt (c_theorem c) s) as [e|e s'|s'|s'] eqn:Hatt; try reflexivity.
    by destruct (Hfail s'). }
  split; [exact Hv|]. split; [|apply logged_visited].
  simpl. unfold bind at 1. by rewrite Hv.
Qed.

Section C4_demo.
#[local] Existing Instances Demo.domain Demo.externals.

Lemma C4_failed_candidate_dropped_witness :
  visit eval_py Demo.first_pool 2 (-2180456) Demo.world1 =
    (Return Dropped,
     visited Demo.world1 Demo.failing
       (Demo.start 0 None)) /\
  advance eval_py Demo.first_pool [(2%nat, -2180456)] [] Demo.world1 =
    advance eval_py Demo.first_pool [] []
      (visited Demo.world1 Demo.failing
         (Demo.start 0 None)) /\
  logged (visited Demo.world1 Demo.failing
            (Demo.start 0 None)) =
    logged Demo.world1 ++ [Exception "no instance matched"].
Proof.
  refine (C4_failed_candidate_dropped eval_py Demo.first_pool 2%nat (-2180456) [] []
            Demo.world1 Demo.failing (Demo.start 0 None) _ _ _).
  - reflexivity.
  - reflexivity.
  - intros s'. vm_compute. discriminate.
Defined.

(** An application that changes nothing is dropped without a word to the
    logger. *)
Lemma C4_counterexample :
  attempt 1 (Demo.start 0 None) =
    NoOp (Demo.start 0 None) /\
  fst (visit eval_py Demo.first_pool 1 (-1453640) Demo.world1) = Return Dropped /\
  logged (snd (visit eval_py Demo.first_pool 1 (-1453640) Demo.world1)) = [] /\
  trace (snd (visit eval_py Demo.first_pool 1 (-1453640) Demo.world1)) =
    [EvDeepcopy 0 1; EvApply 1 1].
Proof. repeat split. Qed.
End C4_demo.

(** ** C10: a clone is an object of its own *)

Section Frame.
Context `{X : Externals}.

Lemma expand_heap beam_size hypotheses : forall pool w o w',
  expand beam_size hypotheses pool w = (o, w') -> heap w' = heap w.
Proof.
  induction hypotheses as [|hyp rest IH]; intros pool w o w' H; simpl in H.
  - by injection H as _ <-.
  - unfold bind at 1 in H.
    destruct (theorem_pred (h_ref hyp) w) as [[d|e] w1] eqn:Hpred.
    + apply theorem_pred_heap in Hpred. rewrite <- Hpred.
      unfold bind, lift in H.
      destruct (expand_ranks d hyp (seq 0 (Z.to_nat beam_size)) pool) as [pl|e].
      * eapply IH, H.
      * by injection H as _ <-.
    + apply theorem_pred_heap in Hpred. by injection H as _ <-.
Qed.

Lemma beam_iter_prefix script beam_size hypotheses w o w' :
  beam_iter script beam_size hypotheses w = (o, w') ->
  heap w `prefix_of` heap w'.
Proof.
  unfold beam_iter. destruct (_ <=? _).
  - unfold bind at 1.
    destruct (expand beam_size hypotheses [] w) as [[pool|e] w1] eqn:Hexp;
      apply expand_heap in Hexp; rewrite <- Hexp.
    + apply advance_prefix.
    + by intros [= _ <-].
  - by intros [= _ <-].
Qed.

Lemma while_loop_prefix script beam_size remaining : forall hypotheses w o w',
  while_loop script beam_size remaining hypotheses w = (o, w') ->
  heap w `prefix_of` heap w'.
Proof.
  induction remaining as [|n IH]; intros hypotheses w o w' H; simpl in H.
  - by injection H as _ <-.
  - unfold bind in H.
    destruct (beam_iter script beam_size hypotheses w) as [[c|e] w1] eqn:Hiter;
      apply beam_iter_prefix in Hiter.
    + destruct c as [new|res].
      * etrans; [exact Hiter|]. eapply IH, H.
      * by injection H as _ <-.
    + by injection H as _ <-.
Qed.
End Frame.

(** C10.  [copy.deepcopy] gives the branch an object of its own: a new
    address, holding the state of the parent.  Visiting a candidate, that
    is cloning its parent and applying the theorem to the clone, leaves
    every object that was in the heap before (the parent, the other
    hypotheses, the clones made for the candidates visited earlier) in the
    state it had: graph, reasoning record, answer and the rest.  So do the
    whole second loop and the whole search. *)
Theorem C10_clone_independent `{X : Externals} script (a : nat) (s : HypState) w :
  heap w !! a = Some s ->
  (deepcopy a w =
     (Return (length (heap w)),
      {| heap := heap w ++ [s]; map_dict := map_dict w;
         trace := trace w ++ [EvDeepcopy a (length (heap w))] |}) /\
   heap w !! length (heap w) = None) /\
  (forall pool cand_hyp_id cand_hyp_score,
     heap (snd (visit script pool cand_hyp_id cand_hyp_score w)) !! a = Some s) /\
  (forall pool top new_hypotheses,
     heap (snd (advance script pool top new_hypotheses w)) !! a = Some s) /\
  (forall max_step beam_size graph_solver,
     heap (snd (beam_search_of script max_step beam_size graph_solver w)) !! a = Some s).
Proof.
  intros Ha. repeat split.
  - unfold deepcopy, bind, read, alloc, emit, ret. rewrite Ha. reflexivity.
  - apply lookup_ge_None. lia.
  - intros pool cand_hyp_id cand_hyp_score.
    eapply prefix_lookup_Some; [exact Ha|].
    eapply visit_prefix. apply surjective_pairing.
  - intros pool top new_hypotheses.
    eapply prefix_lookup_Some; [exact Ha|].
    eapply advance_prefix. apply surjective_pairing.
  - intros max_step beam_size graph_solver.
    eapply prefix_lookup_Some; [exact Ha|].
    eapply while_loop_prefix. apply surjective_pairing.
Qed.

Section C10_demo.
#[local] Existing Instances Demo.domain Demo.externals.

Lemma C10_clone_independent_witness :
  (deepcopy 0 Demo.world1 =
     (Return (length (heap Demo.world1)),
      {| heap := heap Demo.world1 ++ [Demo.start 0 None];
         map_dict := map_dict Demo.world1;
         trace := trace Demo.world1 ++ [EvDeepcopy 0 (length (heap Demo.world1))] |}) /\
   heap Demo.world1 !! length (heap Demo.world1) = None) /\
  (forall pool cand_hyp_id cand_hyp_score,
     heap (snd (visit eval_py pool cand_hyp_id cand_hyp_score Demo.world1)) !! 0%nat =
       Some (Demo.start 0 None)) /\
  (forall pool top new_hypotheses,
     heap (snd (advance eval_py pool top new_hypotheses Demo.world1)) !! 0%nat =
       Some (Demo.start 0 None)) /\
  (forall max_step beam_size graph_solver,
     heap (snd (beam_search_of eval_py max_step beam_size graph_solver Demo.world1))
       !! 0%nat = Some (Demo.start 0 None)).
Proof.
  apply (C10_clone_independent eval_py 0%nat (Demo.start 0 None) Demo.world1).
  reflexivity.
Defined.
End C10_demo.

(** ** C5: scores *)

Section Scores.
Context `{X : Externals}.

Lemma visit_Kept script pool cand_hyp_id cand_hyp_score w h w' :
  visit script pool cand_hyp_id cand_hyp_score w = (Return (Kept h), w') ->
  exists c, pool !! cand_hyp_id = Some c /\
            h_ref h = length (heap w) /\
            h_score h = cand_hyp_score /\
            h_steps h = c_steps c.
Proof.
  intros H.
  destruct (pool !! cand_hyp_id) as [c|] eqn:Hc.
  - destruct (heap w !! c_hyp c) as [s|] eqn:Hs.
    + rewrite (visit_eq _ _ _ _ _ _ _ Hc Hs) in H.
      exists c. split; [done|].
      destruct (attempt (c_theorem c) s) as [e|e s'|s'|s']; try discriminate.
      destruct (answer s'); [discriminate|].
      by injection H as <- _.
    + unfold visit in H. rewrite Hc in H.
      unfold deepcopy, bind, read in H. rewrite Hs in H. discriminate.
  - unfold visit in H. rewrite Hc in H. discriminate.
Qed.

Lemma advance_kept script pool top : forall new w new' w',
  advance script pool top new w = (Return (Continue new'), w') ->
  exists kept,
    new' = new ++ kept /\
    Forall (fun h => exists pos c,
              (pos, h_score h) ∈ top /\ pool !! pos = Some c /\
              h_steps h = c_steps c) kept.
Proof.
  induction top as [|[cand_hyp_id cand_hyp_score] top IH]; intros new w new' w' H;
    simpl in H.
  - injection H as <- <-. exists []. by rewrite app_nil_r.
  - unfold bind in H.
    destruct (visit script pool cand_hyp_id cand_hyp_score w) as [[r|e] w1] eqn:Hv;
      [|discriminate].
    destruct r as [|res|h]; [|discriminate|].
    + apply IH in H as (kept & -> & Hall). exists kept. split; [done|].
      eapply Forall_impl; [exact Hall|].
      intros h' (pos & c & Hin & Hrest). exists pos, c. split; [by right|done].
    + apply IH in H as (kept & -> & Hall).
      apply visit_Kept in Hv as (c & Hc & _ & Hsc & Hst).
      exists (h :: kept). rewrite <- app_assoc. split; [done|].
      constructor.
      * exists cand_hyp_id, c. rewrite Hsc. split; [by left|done].
      * eapply Forall_impl; [exact Hall|].
        intros h' (pos & c' & Hin & Hrest). exists pos, c'. split; [by right|done].
Qed.

Section WithLaws.
Context (one : Score) {L : FloatLaws one}.
Hypothesis Htopk : topk_contract.
Hypothesis Hprob : probabilities_at_most one.

Lemma generated_le beam_size hyp p c :
  fle (h_score hyp) zero = true ->
  generated_by beam_size hyp p c ->
  fle (np_log p) zero = true /\ fle (c_score c) (h_score hyp) = true.
Proof.
  intros Hz (d & i & w1 & w2 & Hpred & _ & Hd & Hp & _ & Hsc & _).
  assert (Hlog : fle (np_log p) zero = true).
  { apply laws_log; [|exact Hp].
    apply Hprob in Hpred. rewrite Forall_forall in Hpred.
    apply list_elem_of_lookup_2 in Hd. exact (Hpred _ Hd). }
  split; [exact Hlog|]. rewrite Hsc. by apply laws_add.
Qed.

Lemma selected_le beam_size hypotheses pool :
  sound_scores hypotheses ->
  Forall (generated beam_size hypotheses) pool ->
  Forall (fun top => exists c hyp p,
            pool !! fst top = Some c /\ hyp ∈ hypotheses /\
            generated_by beam_size hyp p c /\
            snd top = to_float32 (fadd (h_score hyp) (np_log p)) /\
            fle (snd top) (h_score hyp) = true)
         (select beam_size pool).
Proof.
  intros Hsound Hgen.
  pose proof (select_spec beam_size pool Htopk) as [_ Hsel].
  eapply Forall_impl; [exact Hsel|].
  intros top (c & Hc & Htop).
  rewrite Forall_forall in Hgen.
  destruct (Hgen c) as (hyp & p & Hin & Hby);
    [by apply list_elem_of_lookup_2 in Hc|].
  unfold sound_scores in Hsound. rewrite Forall_forall in Hsound.
  destruct (Hsound hyp Hin) as [Hz Hrep].
  destruct (generated_le _ _ _ _ Hz Hby) as [_ Hle].
  exists c, hyp, p. repeat split; try done.
  - rewrite Htop. f_equal.
    by destruct Hby as (d & i & w1 & w2 & _ & _ & _ & _ & _ & Hsc & _).
  - rewrite Htop, <- Hrep. by apply laws_float32_mono.
Qed.

Lemma beam_iter_sound script beam_size hypotheses w new_hypotheses w' :
  sound_scores hypotheses ->
  beam_iter script beam_size hypotheses w = (Return (Continue new_hypotheses), w') ->
  sound_scores new_hypotheses.
Proof.
  intros Hsound H. unfold beam_iter in H.
  destruct (_ <=? _); [|discriminate].
  apply bind_inv_Return in H as (pool & w1 & Hexp & H).
  apply expand_spec in Hexp as (new & Hnew & _ & Hgen & _). simpl in Hnew. subst new.
  apply advance_kept in H as (kept & -> & Hkept). simpl.
  pose proof (selected_le beam_size hypotheses pool Hsound Hgen) as Hsel.
  rewrite Forall_forall in Hsel.
  eapply Forall_impl; [exact Hkept|].
  intros h (pos & c & Hin & _).
  destruct (Hsel _ Hin) as (c' & hyp & p & _ & Hhyp & _ & Heq & Hle).
  simpl in Heq, Hle.
  unfold sound_scores in Hsound. rewrite Forall_forall in Hsound.
  destruct (Hsound hyp Hhyp) as [Hz _].
  split.
  - eapply laws_trans; [exact Hle|exact Hz].
  - rewrite Heq. apply laws_float32_idem.
Qed.

Lemma boundary_sound script beam_size graph_solver w0 w hypotheses :
  boundary script beam_size graph_solver w0 w hypotheses ->
  sound_scores hypotheses.
Proof.
  induction 1 as [|w hyps w' hyps' _ IH Hiter].
  - repeat constructor; simpl; [apply laws_zero|apply laws_float32_zero].
  - eapply beam_iter_sound; eauto.
Qed.
End WithLaws.
End Scores.


Lemma demo_laws : @FloatLaws Demo.domain Demo.unit_one.
Proof.
  split; simpl; unfold Demo.unit_one; intros.
  - lia.
  - reflexivity.
  - apply Z.leb_le. apply Z.leb_le in H.
    pose proof (Z.log2_le_mono p 1048576 H) as Hlog.
    change (Z.log2 1048576) with 20 in Hlog. nia.
  - lia.
  - apply Z.leb_le. apply Z.leb_le in H.
    apply Z.mul_le_mono_nonneg_r; [lia|]. apply Z.div_le_mono; lia.
  - by rewrite Z.div_mul.
  - reflexivity.
Qed.

Lemma demo_probabilities :
  @probabilities_at_most Demo.domain Demo.externals Demo.unit_one.
Proof.
  intros a w d w'.
  unfold theorem_pred, bind, emit, read, get_map_dict, set_map_dict, lift, ret.
  simpl. destruct (heap w !! a) as [s|]; simpl; [|discriminate].
  destruct (global_graph s =? 7)%nat; [discriminate|].
  intros [= <- <-]. unfold dict_of_pairs, dict_set. simpl. repeat constructor.
Qed.

(** The facts of [FloatLaws] hold of the real numbers. *)
Lemma real_laws : @FloatLaws RealScores.real_domain 1%R.
Proof.
  split; simpl; intros.
  - destruct (Rle_dec a b), (Rle_dec b c), (Rle_dec a c); try done. lra.
  - destruct (Rle_dec 0 0); [done|lra].
  - destruct (Rle_dec p 1); [|done]. destruct (Rlt_dec p (1 / 100000)); [done|].
    destruct (Rle_dec (ln p) 0) as [|Hn]; [done|]. exfalso. apply Hn.
    rewrite <- ln_1. destruct (Req_dec p 1) as [->|Hne]; [lra|].
    left. apply ln_increasing; lra.
  - destruct (Rle_dec a 0), (Rle_dec x 0); try done.
    destruct (Rle_dec (a + x) a); [done|lra].
  - done.
  - done.
  - done.
Qed.

Section C5_demo.
#[local] Existing Instances Demo.domain Demo.externals.

End C5_demo.

(** ** C8 and C9: the orchestration *)

Section Orchestrator.
Context `{X : Externals} `{P : @Problems D}.

Lemma solve_well_formed solver q_id clock w res w' :
  EvalPy.solve solver q_id clock w = (Return res, w') -> well_formed res.
Proof.
  unfold EvalPy.solve, well_formed. intros H.
  apply bind_inv_Return in H as (data & w1 & _ & H).
  apply bind_inv_Return in H as (code & w2 & _ & H).
  apply bind_inv_Return in H as (created & w3 & _ & H).
  apply bind_inv_Return in H as (graph_solver & w4 & _ & H).
  apply bind_inv_Return in H as (u & w5 & _ & H).
  apply bind_inv_Return in H as (s & w6 & _ & H).
  apply bind_inv_Return in H as (direct & w7 & _ & H).
  destruct direct as [a|].
  - injection H as <- _. by left.
  - apply bind_inv_Return in H as (beam_search_res & w8 & _ & H).
    destruct (res_answer beam_search_res) as [a|].
    + apply bind_inv_Return in H as (checked & w9 & _ & H).
      destruct (fst checked); injection H as <- _; [by left|by right].
    + injection H as <- _. by right.
Qed.

(** [solve_with_time] of [eval.py], by cases on how the two stages end. *)
Lemma solve_with_time_cases solver state q_id clock in_time :
  ineligible (pretty q_id) = false ->
  fst (EvalPy.solve_with_time solver state q_id clock in_time) =
    let res1 :=
      match ending (in_time Primary)
              (fst (EvalPy.solve solver (pretty q_id) clock state)) with
      | Succeeds r => r
      | Fails _ | TimesOut => default_res (IdStr (pretty q_id))
      end in
    if String.eqb (r_correctness res1) "no" then
      match ending (in_time Fallback) (solve_question (pretty q_id)) with
      | Succeeds r2 => r2
      | Fails _ | TimesOut => res1
      end
    else res1.
Proof.
  intros Hel. unfold EvalPy.solve_with_time. rewrite Hel.
  unfold run_process, ending, EvalPy.solve_process, EvalPy.solve_heuristic_process.
  destruct (in_time Primary); simpl.
  - destruct (fst (EvalPy.solve solver (pretty q_id) clock state)) as [r|e]; simpl.
    + destruct (String.eqb (r_correctness r) "no"); simpl; [|done].
      destruct (in_time Fallback); simpl; [|done].
      by destruct (solve_question (pretty q_id)).
    + destruct (in_time Fallback); simpl; [|done].
      by destruct (solve_question (pretty q_id)).
  - destruct (in_time Fallback); simpl; [|done].
    by destruct (solve_question (pretty q_id)).
Qed.
End Orchestrator.

(** C8, as the code has it.  [solve_with_time] of [eval.py] returns one
    record whatever the two stages do, and raises nothing.  For a problem
    that is not eligible it is the default record.  For an eligible one: if
    the primary pipeline returns a record whose correctness is not "no", it
    is that record; otherwise, if the fallback returns a record in time, it
    is the record of the fallback (whatever its correctness); otherwise it
    is the record of the primary pipeline if it returned one, and the
    default record, whose correctness is "no", if the primary pipeline
    raised or was timed out.  A record returned by the primary pipeline has
    correctness "yes" or "no", and so has the record returned by
    [solve_with_time] when those of the fallback have.  [solve_with_time]
    of [app.py], which has no fallback, returns its default record, whose
    correctness is "no", when [solve] raises or is timed out. *)
Theorem C8_one_record `{X : Externals} `{P : @Problems D}
    solver state q_id clock in_time
    app_state app_q_id max_step beam_size app_clock app_in_time :
  let q := pretty q_id in
  let res := fst (EvalPy.solve_with_time solver state q_id clock in_time) in
  let primary := ending (in_time Primary) (fst (EvalPy.solve solver q clock state)) in
  let fallback := ending (in_time Fallback) (solve_question q) in
  let app_res :=
    fst (AppPy.solve_with_time app_state app_q_id max_step beam_size app_clock
           app_in_time) in
  (ineligible q = true -> res = default_res (IdStr q)) /\
  (ineligible q = false ->
     match primary, fallback with
     | Succeeds r1, Succeeds r2 =>
         res = if String.eqb (r_correctness r1) "no" then r2 else r1
     | Succeeds r1, (Fails _ | TimesOut) => res = r1
     | (Fails _ | TimesOut), Succeeds r2 => res = r2
     | (Fails _ | TimesOut), (Fails _ | TimesOut) => res = default_res (IdStr q)
     end) /\
  r_correctness (default_res (IdStr q)) = "no" /\
  (forall r1, primary = Succeeds r1 -> well_formed r1) /\
  ((forall r2, solve_question q = Return r2 -> well_formed r2) -> well_formed res) /\
  (app_in_time = false -> app_res = Some (default_res IdBuiltin)) /\
  (forall e,
     fst (AppPy.solve app_q_id max_step beam_size app_clock app_state) = Raise e ->
     app_res = Some (default_res IdBuiltin)) /\
  r_correctness (default_res IdBuiltin) = "no".
Proof.
  intros q res primary fallback app_res.
  assert (Hprim : forall r1, primary = Succeeds r1 -> well_formed r1).
  { intros r1. unfold primary, ending.
    destruct (in_time Primary); [|discriminate].
    destruct (EvalPy.solve solver q clock state) as [[r|e] w] eqn:Hsolve; simpl;
      [|discriminate].
    intros [= <-]. eapply solve_well_formed, Hsolve. }
  assert (Hcases : ineligible q = false ->
     match primary, fallback with
     | Succeeds r1, Succeeds r2 =>
         res = if String.eqb (r_correctness r1) "no" then r2 else r1
     | Succeeds r1, (Fails _ | TimesOut) => res = r1
     | (Fails _ | TimesOut), Succeeds r2 => res = r2
     | (Fails _ | TimesOut), (Fails _ | TimesOut) => res = default_res (IdStr q)
     end).
  { intros Hel. unfold res. rewrite (solve_with_time_cases _ _ _ _ _ Hel).
    fold q. fold primary. fold fallback. simpl.
    destruct primary as [r1|e1|], fallback as [r2|e2|]; simpl; try reflexivity;
      by destruct (String.eqb (r_correctness r1) "no"). }
  repeat split.
  - intros Hin. unfold res, EvalPy.solve_with_time. fold q. by rewrite Hin.
  - exact Hcases.
  - exact Hprim.
  - intros Hfb.
    assert (Hfb' : forall r2, fallback = Succeeds r2 -> well_formed r2).
    { intros r2. unfold fallback, ending.
      destruct (in_time Fallback); [|discriminate].
      destruct (solve_question q) as [r|e] eqn:Hq; [|discriminate].
      intros [= <-]. by apply Hfb. }
    destruct (ineligible q) eqn:Hel.
    + unfold res, EvalPy.solve_with_time. fold q. rewrite Hel. by right.
    + specialize (Hcases eq_refl).
      destruct primary as [r1|e1|] eqn:Hp, fallback as [r2|e2|] eqn:Hf;
        rewrite Hcases; try (by right); try (by apply Hprim); try (by apply Hfb').
      destruct (String.eqb (r_correctness r1) "no"); [by apply Hfb'|by apply Hprim].
  - intros ->. reflexivity.
  - intros e He. unfold app_res, AppPy.solve_with_time.
    destruct app_in_time; [|reflexivity]. by rewrite He.
Qed.

Section C8_demo.
#[local] Existing Instances Demo.domain Demo.externals Demo.problems.

(** Problem 6 when both children are timed out. *)
Lemma C8_one_record_witness :
  fst (EvalPy.solve_with_time Demo.solver Demo.world0 6 "0.1" (fun _ => false)) =
    default_res (IdStr "6").
Proof.
  pose proof (C8_one_record Demo.solver Demo.world0 6 "0.1" (fun _ => false)
                Demo.world0 "6" 10 3 "0.1" false) as (_ & H & _).
  apply H. vm_compute. reflexivity.
Defined.

(** In [eval.py], the primary pipeline raises on problem 5 (or is timed
    out), and the record returned is the one of the fallback, with
    correctness "yes". *)
Lemma C8_counterexample :
  fst (EvalPy.solve Demo.solver "5" "0.1" Demo.world0) =
    Raise (Exception "No such file or directory") /\
  r_correctness
    (fst (EvalPy.solve_with_time Demo.solver Demo.world0 5 "0.1" (fun _ => true))) =
    "yes" /\
  r_correctness
    (fst (EvalPy.solve_with_time Demo.solver Demo.world0 5 "0.1"
            (fun st => match st with Primary => false | Fallback => true end))) =
    "yes".
Proof. repeat split; vm_compute; reflexivity. Qed.

(** In [app.py], [solve] ends without a [return] when the answer that the
    search found is not the right one, and [solve_with_time] returns
    [None]. *)
Lemma app_solve_with_time_None :
  AppPy.solve_with_time Demo.world0 "3" 10 3 "0.1" true = (None, []).
Proof. vm_compute. reflexivity. Qed.
End C8_demo.

Section Fallback.
Context `{X : Externals} `{P : @Problems D}.

(** The events of [solve_with_time] of [eval.py] for an eligible problem:
    the fallback is started exactly when the record at hand after the
    primary stage has correctness "no". *)
Lemma fallback_started solver state q_id clock in_time :
  ineligible (pretty q_id) = false ->
  let res1 :=
    match ending (in_time Primary)
            (fst (EvalPy.solve solver (pretty q_id) clock state)) with
    | Succeeds r => r
    | Fails _ | TimesOut => default_res (IdStr (pretty q_id))
    end in
  ProcStart Fallback ∈ snd (EvalPy.solve_with_time solver state q_id clock in_time)
  <-> r_correctness res1 = "no".
Proof.
  intros Hel. unfold EvalPy.solve_with_time. rewrite Hel.
  unfold run_process, ending, EvalPy.solve_process, EvalPy.solve_heuristic_process.
  destruct (in_time Primary); simpl.
  - destruct (fst (EvalPy.solve solver (pretty q_id) clock state)) as [r|e]; simpl.
    + destruct (String.eqb (r_correctness r) "no") eqn:Hno; simpl.
      * apply String.eqb_eq in Hno. split; [done|]. intros _.
        destruct (in_time Fallback); simpl; set_solver.
      * apply String.eqb_neq in Hno. split; [|done].
        intros Hin. exfalso.
        apply elem_of_cons in Hin as [Hin|Hin]; [discriminate|].
        apply list_elem_of_singleton in Hin. discriminate.
    + split; [done|]. intros _. destruct (in_time Fallback); simpl; set_solver.
  - split; [done|]. intros _. destruct (in_time Fallback); simpl; set_solver.
Qed.

(** [AgentSolver.solve] when the answer found by [init_solve] is the
    right one. *)
Lemma solve_direct solver q_id clock state data code created s a a' :
  load_data q_id = Return data ->
  ord (data_answer data) = Return code ->
  get_graph_solver q_id = Return created ->
  init_solve (fst created) = (Return (), s) ->
  answer s = Some a ->
  check_transformed_answer a (precise_value data) (code - 65) = Return (true, a') ->
  EvalPy.solve solver q_id clock state =
    (Return {| r_id := IdStr q_id; r_target := Some (snd created);
               r_answer := Some a'; r_step_lst := [];
               r_model_instance_eq_num := Some (model_instance_eq_num s);
               r_correctness := "yes"; r_time := Some clock |},
     {| heap := heap state ++ [s]; map_dict := map_dict state;
        trace := trace state |}).
Proof.
  intros Hdata Hord Hcreated Hinit Hanswer Hcheck.
  unfold EvalPy.solve, call_init_solve, bind, lift, alloc, read, write, ret.
  rewrite Hdata, Hord, Hcreated. simpl.
  rewrite lookup_last, Hinit. simpl.
  rewrite insert_last, lookup_last, Hanswer, Hcheck. reflexivity.
Qed.
End Fallback.

(** C9, as the code has it.  In [eval.py], for an eligible problem, the
    fallback is started if and only if the record at hand after the primary
    stage (the record of the primary pipeline, or the default record when it
    raised or was timed out) has correctness "no"; when that record has
    another correctness it is returned as it is.  For a problem that is not
    eligible no process is started.  When the answer that [init_solve]
    finds is verified, [solve] returns a record of correctness "yes"
    without calling the scorer, and [solve_with_time], if the child is back
    in time, returns that record without starting the fallback.
    [solve_with_time] of [app.py] starts no fallback. *)
Theorem C9_fallback_iff `{X : Externals} `{P : @Problems D}
    solver state q_id clock in_time
    app_state app_q_id max_step beam_size app_clock app_in_time :
  let q := pretty q_id in
  let run := EvalPy.solve_with_time solver state q_id clock in_time in
  let res1 :=
    match ending (in_time Primary) (fst (EvalPy.solve solver q clock state)) with
    | Succeeds r => r
    | Fails _ | TimesOut => default_res (IdStr q)
    end in
  (ineligible q = true -> snd run = [LogIneligible]) /\
  (ineligible q = false ->
     (ProcStart Fallback ∈ snd run <-> r_correctness res1 = "no") /\
     (r_correctness res1 <> "no" -> fst run = res1)) /\
  (forall data code created s a a',
     load_data q = Return data ->
     ord (data_answer data) = Return code ->
     get_graph_solver q = Return created ->
     init_solve (fst created) = (Return (), s) ->
     answer s = Some a ->
     check_transformed_answer a (precise_value data) (code - 65) = Return (true, a') ->
     let direct :=
       {| r_id := IdStr q; r_target := Some (snd created); r_answer := Some a';
          r_step_lst := []; r_model_instance_eq_num := Some (model_instance_eq_num s);
          r_correctness := "yes"; r_time := Some clock |} in
     fst (EvalPy.solve solver q clock state) = Return direct /\
     predicted (snd (EvalPy.solve solver q clock state)) = predicted state /\
     (ineligible q = false -> in_time Primary = true ->
      fst run = direct /\ ProcStart Fallback ∉ snd run)) /\
  ProcStart Fallback ∉
    snd (AppPy.solve_with_time app_state app_q_id max_step beam_size app_clock
           app_in_time).
Proof.
  intros q run res1.
  assert (Hret : ineligible q = false -> r_correctness res1 <> "no" -> fst run = res1).
  { intros Hel Hno. unfold run. rewrite (solve_with_time_cases _ _ _ _ _ Hel).
    fold q. fold res1. simpl.
    apply String.eqb_neq in Hno. by rewrite Hno. }
  split; [|split; [|split]].
  - intros Hin. unfold run, EvalPy.solve_with_time. fold q. by rewrite Hin.
  - intros Hel. split; [by apply fallback_started|by apply Hret].
  - intros data code created s a a' Hdata Hord Hcreated Hinit Hanswer Hcheck direct.
    pose proof (solve_direct solver q clock state _ _ _ _ _ _
                  Hdata Hord Hcreated Hinit Hanswer Hcheck) as Hsolve.
    fold direct in Hsolve.
    split; [by rewrite Hsolve|]. split; [by rewrite Hsolve|].
    intros Hel Htime.
    assert (Hres1 : res1 = direct).
    { unfold res1, ending. by rewrite Htime, Hsolve. }
    split.
    + rewrite <- Hres1. apply Hret; [done|]. by rewrite Hres1.
    + intros Hin. apply fallback_started in Hin; [|done].
      fold q in Hin. fold res1 in Hin. by rewrite Hres1 in Hin.
  - unfold AppPy.solve_with_time.
    destruct app_in_time.
    + destruct (fst (AppPy.solve _ _ _ _ _)); simpl; set_solver.
    + simpl. set_solver.
Qed.

Section C9_demo.
#[local] Existing Instances Demo.domain Demo.externals Demo.problems.

(** Problem 2, which [init_solve] solves. *)
Lemma C9_fallback_iff_witness :
  fst (EvalPy.solve_with_time Demo.solver Demo.world0 2 "0.1" (fun _ => true)) =
    {| r_id := IdStr "2"; r_target := Some "Find x"; r_answer := Some 42;
       r_step_lst := []; r_model_instance_eq_num := Some 0;
       r_correctness := "yes"; r_time := Some "0.1" |} /\
  ProcStart Fallback ∉
    snd (EvalPy.solve_with_time Demo.solver Demo.world0 2 "0.1" (fun _ => true)).
Proof.
  pose proof (C9_fallback_iff Demo.solver Demo.world0 2 "0.1" (fun _ => true)
                Demo.world0 "2" 10 3 "0.1" true) as (_ & _ & H & _).
  refine (proj2 (proj2 (H {| precise_value := [41; 42; 43; 44]; data_answer := "B" |}
                          66 (Demo.start 100 None, "Find x")
                          (Demo.start 100 (Some 42)) 42 42 _ _ _ _ _ _)) _ _);
    vm_compute; reflexivity.
Defined.

(** In [app.py] the record of [solve] has correctness "no" (the search is
    given no iteration) and is returned; no fallback is started. *)
Lemma C9_counterexample :
  exists res,
    AppPy.solve_with_time Demo.world0 "1" 0 3 "0.1" true = (Some res, []) /\
    r_correctness res = "no" /\
    ProcStart Fallback ∉
      snd (AppPy.solve_with_time Demo.world0 "1" 0 3 "0.1" true).
Proof.
  eexists. split; [vm_compute; reflexivity|]. split; [reflexivity|].
  vm_compute. set_solver.
Qed.
End C9_demo.

(** * Further properties of the search *)

Section PoolOrder.
Context `{X : Externals}.

Lemma expand_app beam_size pre : forall rest pool w,
  expand beam_size (pre ++ rest) pool w =
    bind (expand beam_size pre pool) (fun p => expand beam_size rest p) w.
Proof.
  induction pre as [|h pre IH]; intros rest pool w; simpl; [reflexivity|].
  unfold bind.
  destruct (theorem_pred (h_ref h) w) as [[d|e] w1]; [|reflexivity].
  unfold lift.
  destruct (expand_ranks d h (seq 0 (Z.to_nat beam_size)) pool) as [pl|e];
    [|reflexivity].
  rewrite IH. reflexivity.
Qed.

Lemma beam_iter_expand_raises script beam_size hypotheses w e w1 :
  Z.of_nat (length hypotheses) <= beam_size ->
  expand beam_size hypotheses [] w = (Raise e, w1) ->
  beam_iter script beam_size hypotheses w = (Raise e, w1).
Proof.
  intros Hle Hexp. unfold beam_iter.
  apply Z.leb_le in Hle. rewrite Hle.
  by rewrite (bind_Raise _ _ _ _ _ Hexp).
Qed.

Lemma while_loop_raises script beam_size remaining hypotheses w e w1 :
  beam_iter script beam_size hypotheses w = (Raise e, w1) ->
  while_loop script beam_size (S remaining) hypotheses w = (Raise e, w1).
Proof. intros H. cbn [while_loop]. by rewrite (bind_Raise _ _ _ _ _ H). Qed.
End PoolOrder.

(** X1.  The pool of an iteration lists the candidates parent after parent,
    in the order of the frontier, and for each parent in the order of the
    ranks: they are the entries, among the first [beam_size] of the
    dictionary that the call of the scorer on this parent has returned in
    this iteration, whose probability is not below [EPSILON].  Each of these
    dictionaries has at least [beam_size] entries. *)
Theorem pool_in_generation_order `{X : Externals} beam_size hypotheses w pool w' :
  expand beam_size hypotheses [] w = (Return pool, w') ->
  exists dicts,
    predictions hypotheses w = (Return dicts, w') /\
    length dicts = length hypotheses /\
    Forall (fun d => (Z.to_nat beam_size = 0 \/ Z.to_nat beam_size <= length d)%nat)
           dicts /\
    pool = concat (zip_with (fun h d => candidates_of h (take (Z.to_nat beam_size) d))
                     hypotheses dicts).
Proof.
  intros H. apply expand_predictions in H as (dicts & Hpred & Hlen & ->).
  exists dicts. split_and!; try done.
  by eapply predictions_length.
Qed.

Section PoolOrder_demo.
#[local] Existing Instances Demo.domain Demo.externals.

Lemma pool_in_generation_order_witness :
  exists dicts,
    predictions (initial_frontier 0%nat) Demo.world1 =
      (Return dicts, snd (expand 3 (initial_frontier 0%nat) [] Demo.world1)) /\
    length dicts = length (initial_frontier 0%nat) /\
    Forall (fun d => (Z.to_nat 3 = 0 \/ Z.to_nat 3 <= length d)%nat) dicts /\
    Demo.first_pool =
      concat (zip_with (fun h d => candidates_of h (take (Z.to_nat 3) d))
                (initial_frontier 0%nat) dicts).
Proof.
  apply (pool_in_generation_order 3 (initial_frontier 0%nat) Demo.world1
           Demo.first_pool (snd (expand 3 (initial_frontier 0%nat) [] Demo.world1))).
  vm_compute. reflexivity.
Defined.
End PoolOrder_demo.

(** X2.  When the dictionary predicted for the initial hypothesis has fewer
    than [beam_size] entries, a search of at least one step raises
    [IndexError] in its first iteration, once the scorer has been called:
    the loop over the ranks reads the rank past the end of the dictionary,
    outside any [try]. *)
Theorem short_prediction_raises `{X : Externals} script max_step beam_size
    graph_solver w d w1 :
  1 <= max_step ->
  theorem_pred graph_solver w = (Return d, w1) ->
  Z.of_nat (length d) < beam_size ->
  beam_search_of script max_step beam_size graph_solver w = (Raise IndexError, w1).
Proof.
  intros Hms Hpred Hlen. unfold beam_search_of.
  destruct (Z.to_nat max_step) as [|n] eqn:Hn; [lia|].
  apply while_loop_raises, beam_iter_expand_raises; [simpl; lia|].
  cbn [initial_frontier expand h_ref].
  rewrite (bind_Return _ _ _ _ _ Hpred).
  unfold bind, lift. rewrite expand_ranks_closed.
  case_bool_decide as Hc; [exfalso; lia|reflexivity].
Qed.

Section Short_demo.
#[local] Existing Instances Demo.domain Demo.externals.

Lemma short_prediction_raises_witness :
  beam_search_of eval_py 10 5 0%nat Demo.world1 =
    (Raise IndexError, snd (theorem_pred 0%nat Demo.world1)).
Proof.
  apply (short_prediction_raises eval_py 10 5 0%nat Demo.world1
           [(0%nat, 524288); (1%nat, 262144); (2%nat, 262139); (3%nat, 5)]).
  - lia.
  - vm_compute. reflexivity.
  - simpl. lia.
Defined.
End Short_demo.

(** X3.  With a beam size below 1, a search of at least one step fails the
    assertion of its first iteration, on one hypothesis against
    [beam_size]; nothing else has happened by then: the scorer has not been
    called. *)
Theorem narrow_beam_raises `{X : Externals} script max_step beam_size graph_solver w :
  beam_size < 1 ->
  1 <= max_step ->
  beam_search_of script max_step beam_size graph_solver w =
    (Raise (AssertionError 1 beam_size), w).
Proof.
  intros Hbs Hms. unfold beam_search_of.
  destruct (Z.to_nat max_step) as [|n] eqn:Hn; [lia|].
  apply while_loop_raises. unfold beam_iter.
  cbn [initial_frontier length].
  destruct (Z.of_nat 1 <=? beam_size) eqn:Hle; [apply Z.leb_le in Hle; lia|].
  reflexivity.
Qed.

Section Narrow_demo.
#[local] Existing Instances Demo.domain Demo.externals.

Lemma narrow_beam_raises_witness :
  beam_search_of app_py 10 0 0%nat Demo.world1 =
    (Raise (AssertionError 1 0), Demo.world1).
Proof.
  apply (narrow_beam_raises app_py 10 0 0%nat Demo.world1); lia.
Defined.
End Narrow_demo.

Section EmptyFrontier.
Context `{X : Externals}.

Lemma select_nil beam_size : topk_contract -> select beam_size [] = [].
Proof.
  intros Htopk. pose proof (select_spec beam_size [] Htopk) as [_ Hall].
  destruct (select beam_size []) as [|[pos sc] l]; [done|].
  apply Forall_cons in Hall as [(c & Hc & _) _]. simpl in Hc. discriminate.
Qed.

Lemma while_loop_nil script beam_size remaining : forall w,
  topk_contract -> 0 <= beam_size ->
  while_loop script beam_size remaining [] w = (Return empty_res, w).
Proof.
  induction remaining as [|n IH]; intros w Htopk Hbs; [reflexivity|].
  cbn [while_loop].
  assert (Hiter : beam_iter script beam_size [] w = (Return (Continue []), w)).
  { unfold beam_iter. cbn [length].
    rewrite (proj2 (Z.leb_le (Z.of_nat 0) beam_size)) by lia.
    cbn [expand]. unfold bind, ret. by rewrite select_nil. }
  rewrite (bind_Return _ _ _ _ _ Hiter). by apply IH.
Qed.
End EmptyFrontier.

(** X4.  Once an iteration has dropped every candidate it visited, or
    found none to visit, the frontier is empty and the iterations that
    remain do nothing: the search returns the empty result and the world
    that this iteration left, so the scorer is not called again. *)
Theorem empty_frontier_ends `{X : Externals} script beam_size remaining
    hypotheses w w' :
  topk_contract ->
  beam_iter script beam_size hypotheses w = (Return (Continue []), w') ->
  while_loop script beam_size (S remaining) hypotheses w = (Return empty_res, w').
Proof.
  intros Htopk Hiter. cbn [while_loop].
  rewrite (bind_Return _ _ _ _ _ Hiter).
  apply while_loop_nil; [done|].
  unfold beam_iter in Hiter.
  destruct (Z.of_nat (length hypotheses) <=? beam_size) eqn:Hle; [|discriminate].
  apply Z.leb_le in Hle. lia.
Qed.

Lemma empty_pool_topk_contract : @topk_contract Demo.domain EmptyPool.externals.
Proof. intros t k Hk. apply (topk_by_insertion_spec t k Hk). Qed.

Section Empty_demo.
#[local] Existing Instances Demo.domain EmptyPool.externals.

Lemma empty_frontier_ends_witness :
  while_loop eval_py 3 10 (initial_frontier 0%nat) Demo.world1 =
    (Return empty_res, snd (beam_iter eval_py 3 (initial_frontier 0%nat) Demo.world1)).
Proof.
  apply (empty_frontier_ends eval_py 3 9 (initial_frontier 0%nat) Demo.world1).
  - exact empty_pool_topk_contract.
  - vm_compute. reflexivity.
Defined.
End Empty_demo.

(** ** What the trace shows *)

Section Traces.
Context `{X : Externals}.

Lemma theorem_pred_trace a w o w' :
  theorem_pred a w = (o, w') -> trace w' = trace w ++ [EvPredict a].
Proof.
  unfold theorem_pred, bind, emit, read, get_map_dict, set_map_dict, lift, ret.
  simpl. destruct (heap w !! a) as [s|]; simpl.
  - destruct (model_softmax _) as [score|e]; intros [= <- <-]; reflexivity.
  - intros [= <- <-]. reflexivity.
Qed.

Lemma predicted_app w w' evs :
  trace w' = trace w ++ evs ->
  predicted w' =
    predicted w ++
    omap (fun ev => match ev with EvPredict a => Some a | _ => None end) evs.
Proof. intros H. unfold predicted. by rewrite H, omap_app. Qed.

Lemma logged_app w w' evs :
  trace w' = trace w ++ evs ->
  logged w' =
    logged w ++
    omap (fun ev => match ev with EvLogError e => Some e | _ => None end) evs.
Proof. intros H. unfold logged. by rewrite H, omap_app. Qed.

(** The first loop calls the scorer on the hypotheses of the frontier, in
    order, up to the one for which it raises, and does nothing else. *)
Lemma expand_trace beam_size hypotheses : forall pool w o w',
  expand beam_size hypotheses pool w = (o, w') ->
  exists k,
    (k <= length hypotheses)%nat /\
    trace w' = trace w ++ map (fun h => EvPredict (h_ref h)) (take k hypotheses) /\
    (forall p, o = Return p -> k = length hypotheses).
Proof.
  induction hypotheses as [|h rest IH]; intros pool w o w' H; simpl in H.
  - injection H as <- <-. exists 0%nat. simpl. rewrite app_nil_r. by repeat split.
  - unfold bind at 1 in H.
    destruct (theorem_pred (h_ref h) w) as [[d|e] w1] eqn:Hpred;
      apply theorem_pred_trace in Hpred.
    + unfold bind, lift in H.
      destruct (expand_ranks d h (seq 0 (Z.to_nat beam_size)) pool) as [pl|e].
      * apply IH in H as (k & Hk & Htr & Hret).
        exists (S k). simpl. repeat split; [lia| |].
        -- rewrite Htr, Hpred, <- app_assoc. reflexivity.
        -- intros p Hp. f_equal. by eapply Hret.
      * injection H as <- <-. exists 1%nat. simpl.
        repeat split; [lia|done|discriminate].
    + injection H as <- <-. exists 1%nat. simpl.
      repeat split; [lia|done|discriminate].
Qed.

Lemma omap_predict (l : list Hyp) :
  omap (fun ev => match ev with EvPredict a => Some a | _ => None end)
       (map (fun h => EvPredict (h_ref h)) l) = map h_ref l.
Proof. induction l as [|h l IH]; [done|]. simpl. f_equal. exact IH. Qed.

Lemma visit_predicted script pool cand_hyp_id cand_hyp_score w o w' :
  visit script pool cand_hyp_id cand_hyp_score w = (o, w') ->
  predicted w' = predicted w.
Proof.
  intros H.
  destruct (pool !! cand_hyp_id) as [c|] eqn:Hc.
  - destruct (heap w !! c_hyp c) as [s|] eqn:Hs.
    + rewrite (visit_eq _ _ _ _ _ _ _ Hc Hs) in H. injection H as _ <-.
      unfold visited, predicted.
      destruct (attempt _ _); simpl; rewrite omap_app; simpl; by rewrite app_nil_r.
    + unfold visit in H. rewrite Hc in H.
      unfold deepcopy, bind, read in H. rewrite Hs in H. by injection H as _ <-.
  - unfold visit in H. rewrite Hc in H. by injection H as _ <-.
Qed.

Lemma advance_predicted script pool top : forall new w o w',
  advance script pool top new w = (o, w') -> predicted w' = predicted w.
Proof.
  induction top as [|[cand_hyp_id cand_hyp_score] top IH]; intros new w o w' H;
    simpl in H.
  - by injection H as _ <-.
  - unfold bind in H.
    destruct (visit script pool cand_hyp_id cand_hyp_score w) as [[r|e] w1] eqn:Hv;
      apply visit_predicted in Hv; rewrite <- Hv.
    + destruct r as [|res|h]; [eapply IH, H|by injection H as _ <-|eapply IH, H].
    + by injection H as _ <-.
Qed.

Lemma beam_iter_predicted script beam_size hypotheses w o w' :
  beam_iter script beam_size hypotheses w = (o, w') ->
  (length (predicted w') <= length (predicted w) + length hypotheses)%nat.
Proof.
  unfold beam_iter. destruct (_ <=? _); [|intros [= _ <-]; lia].
  unfold bind at 1.
  destruct (expand beam_size hypotheses [] w) as [[pool|e] w1] eqn:Hexp;
    apply expand_trace in Hexp as (k & Hk & Htr & _);
    apply predicted_app in Htr.
  - intros H. apply advance_predicted in H. rewrite H, Htr.
    rewrite omap_predict, length_app, length_map, length_take. lia.
  - intros [= _ <-].
    rewrite Htr, omap_predict, length_app, length_map, length_take. lia.
Qed.

Lemma while_loop_predicted script beam_size remaining :
  topk_contract ->
  forall hypotheses w o w',
    while_loop script beam_size remaining hypotheses w = (o, w') ->
    (length (predicted w') <=
     length (predicted w) +
     match remaining with
     | O => 0
     | S n => length hypotheses + n * Z.to_nat beam_size
     end)%nat.
Proof.
  intros Htopk.
  induction remaining as [|n IH]; intros hypotheses w o w' H; cbn [while_loop] in H.
  - injection H as _ <-. lia.
  - unfold bind in H.
    destruct (beam_iter script beam_size hypotheses w) as [[c|e] w1] eqn:Hiter.
    + pose proof (beam_iter_predicted _ _ _ _ _ _ Hiter) as Hcalls.
      destruct c as [new|res].
      * pose proof (beam_iter_width _ _ _ _ _ _ Htopk Hiter) as Hwidth.
        apply IH in H. destruct n as [|n]; [lia|]. nia.
      * injection H as _ <-. lia.
    + pose proof (beam_iter_predicted _ _ _ _ _ _ Hiter) as Hcalls.
      injection H as _ <-. lia.
Qed.
End Traces.

(** X5.  An exception that the scorer raises for a hypothesis of the
    frontier is not caught by the search: the iteration, and the search
    with it, raises that exception.  No candidate has been visited by then:
    no object has been cloned or changed, and nothing has been logged. *)
Theorem scorer_error_propagates `{X : Externals} script beam_size remaining
    pre h post w pool w1 e w2 :
  Z.of_nat (length (pre ++ h :: post)) <= beam_size ->
  expand beam_size pre [] w = (Return pool, w1) ->
  theorem_pred (h_ref h) w1 = (Raise e, w2) ->
  while_loop script beam_size (S remaining) (pre ++ h :: post) w = (Raise e, w2) /\
  heap w2 = heap w /\
  logged w2 = logged w.
Proof.
  intros Hle Hexp Hpred.
  assert (Hall : expand beam_size (pre ++ h :: post) [] w = (Raise e, w2)).
  { rewrite expand_app, (bind_Return _ _ _ _ _ Hexp). cbn [expand].
    by rewrite (bind_Raise _ _ _ _ _ Hpred). }
  split; [by apply while_loop_raises, beam_iter_expand_raises|].
  split; [eapply expand_heap, Hall|].
  apply expand_trace in Hall as (k & _ & Htr & _).
  rewrite (logged_app _ _ _ Htr).
  replace (omap _ _) with (@nil Exc); [by rewrite app_nil_r|].
  generalize (take k (pre ++ h :: post)). intros l.
  induction l as [|x l IHl]; [done|]. simpl. exact IHl.
Qed.


Section Traces_demo.
#[local] Existing Instances Demo.domain Demo.externals.

Lemma scorer_error_propagates_witness :
  while_loop eval_py 3 10 (initial_frontier 0%nat) Failing.world7 =
    (Raise (Exception "inference failed"),
     snd (theorem_pred 0%nat Failing.world7)) /\
  heap (snd (theorem_pred 0%nat Failing.world7)) = heap Failing.world7 /\
  logged (snd (theorem_pred 0%nat Failing.world7)) = logged Failing.world7.
Proof.
  apply (scorer_error_propagates eval_py 3 9 [] (@Build_Hyp Demo.domain 0%nat 0 [])
           [] Failing.world7 [] Failing.world7).
  - simpl. lia.
  - reflexivity.
  - vm_compute. reflexivity.
Defined.

End Traces_demo.

(** ** The frontier and the result *)

Section Frontier.
Context `{X : Externals}.

Lemma attempt_Updated theorem s s' :
  attempt theorem s = Updated s' -> is_updated s' = true.
Proof.
  unfold attempt. destruct (get_model theorem) as [gm|e]; [|discriminate].
  destruct (solve_with_one_model gm s) as [[u|e] s1]; [|discriminate].
  destruct (is_updated s1) eqn:Hup; [|discriminate].
  by intros [= <-].
Qed.

Lemma visit_Kept_state script pool cand_hyp_id cand_hyp_score w h w' :
  visit script pool cand_hyp_id cand_hyp_score w = (Return (Kept h), w') ->
  h_ref h = length (heap w) /\
  exists s', heap w' = heap w ++ [s'] /\ answer s' = None /\ is_updated s' = true.
Proof.
  intros H.
  destruct (pool !! cand_hyp_id) as [c|] eqn:Hc.
  - destruct (heap w !! c_hyp c) as [s|] eqn:Hs.
    + rewrite (visit_eq _ _ _ _ _ _ _ Hc Hs) in H.
      destruct (attempt (c_theorem c) s) as [e|e s'|s'|s'] eqn:Hatt; try discriminate.
      destruct (answer s') eqn:Ha; [discriminate|].
      injection H as <- <-. split; [done|]. exists s'.
      rewrite (visited_heap _ _ _ _ Hatt). repeat split; [done|].
      by eapply attempt_Updated.
    + unfold visit in H. rewrite Hc in H.
      unfold deepcopy, bind, read in H. rewrite Hs in H. discriminate.
  - unfold visit in H. rewrite Hc in H. discriminate.
Qed.

Lemma visit_Answered script pool cand_hyp_id cand_hyp_score w res w' :
  visit script pool cand_hyp_id cand_hyp_score w = (Return (Answered res), w') ->
  exists c s' a,
    pool !! cand_hyp_id = Some c /\
    heap w' = heap w ++ [s'] /\
    answer s' = Some a /\ is_updated s' = true /\
    res = {| res_answer := Some a;
             res_step_lst := answer_steps script (c_steps c) s';
             res_model_instance_eq_num := Some (model_instance_eq_num s') |}.
Proof.
  intros H.
  destruct (pool !! cand_hyp_id) as [c|] eqn:Hc.
  - destruct (heap w !! c_hyp c) as [s|] eqn:Hs.
    + rewrite (visit_eq _ _ _ _ _ _ _ Hc Hs) in H.
      destruct (attempt (c_theorem c) s) as [e|e s'|s'|s'] eqn:Hatt; try discriminate.
      destruct (answer s') as [a|] eqn:Ha; [|discriminate].
      injection H as <- <-. exists c, s', a.
      rewrite (visited_heap _ _ _ _ Hatt). repeat split; try done.
      by eapply attempt_Updated.
    + unfold visit in H. rewrite Hc in H.
      unfold deepcopy, bind, read in H. rewrite Hs in H. discriminate.
  - unfold visit in H. rewrite Hc in H. discriminate.
Qed.

Lemma advance_fresh script pool top : forall new w new' w',
  advance script pool top new w = (Return (Continue new'), w') ->
  exists kept,
    new' = new ++ kept /\
    NoDup (map h_ref kept) /\
    Forall (fun h => (length (heap w) <= h_ref h)%nat /\
                     exists s, heap w' !! h_ref h = Some s /\
                               answer s = None /\ is_updated s = true) kept.
Proof.
  induction top as [|[cand_hyp_id cand_hyp_score] top IH]; intros new w new' w' H;
    simpl in H.
  - injection H as <- <-. exists []. rewrite app_nil_r.
    repeat split; constructor.
  - unfold bind in H.
    destruct (visit script pool cand_hyp_id cand_hyp_score w) as [[r|e] w1] eqn:Hv;
      [|discriminate].
    destruct r as [|res|h]; [|discriminate|].
    + apply visit_prefix, prefix_length in Hv.
      apply IH in H as (kept & -> & Hnd & Hall). exists kept.
      repeat split; [done|].
      eapply Forall_impl; [exact Hall|]. intros h [Hge Hs]. split; [lia|done].
    + pose proof (advance_prefix _ _ _ _ _ _ _ H) as Hpre.
      apply visit_Kept_state in Hv as (Href & s' & Hheap & Ha & Hup).
      apply IH in H as (kept & -> & Hnd & Hall).
      exists (h :: kept). split; [by rewrite <- app_assoc|]. split.
      * simpl. constructor; [|done].
        intros Hin. apply list_elem_of_fmap in Hin as (h' & Heq & Hin').
        rewrite Forall_forall in Hall. destruct (Hall h' Hin') as [Hge _].
        rewrite Hheap, length_app in Hge. simpl in Hge. lia.
      * constructor.
        -- split; [lia|]. exists s'. repeat split; [|done|done].
           eapply prefix_lookup_Some; [|exact Hpre].
           rewrite Hheap, Href. apply lookup_last.
        -- eapply Forall_impl; [exact Hall|]. intros h' [Hge Hs].
           split; [|done]. rewrite Hheap, length_app in Hge. lia.
Qed.

Lemma advance_Finish script pool top : forall new w res w',
  advance script pool top new w = (Return (Finish res), w') ->
  exists pos sc c s' a,
    (pos, sc) ∈ top /\ pool !! pos = Some c /\
    last (heap w') = Some s' /\
    answer s' = Some a /\ is_updated s' = true /\
    res = {| res_answer := Some a;
             res_step_lst := answer_steps script (c_steps c) s';
             res_model_instance_eq_num := Some (model_instance_eq_num s') |}.
Proof.
  induction top as [|[cand_hyp_id cand_hyp_score] top IH]; intros new w res w' H;
    simpl in H.
  - discriminate.
  - unfold bind in H.
    destruct (visit script pool cand_hyp_id cand_hyp_score w) as [[r|e] w1] eqn:Hv;
      [|discriminate].
    destruct r as [|res1|h].
    + apply IH in H as (pos & sc & c & s' & a & Hin & Hrest).
      exists pos, sc, c, s', a. split; [by right|done].
    + injection H as <- <-.
      apply visit_Answered in Hv as (c & s' & a & Hc & Hheap & Ha & Hup & ->).
      exists cand_hyp_id, cand_hyp_score, c, s', a.
      repeat split; try done; [by left|].
      rewrite Hheap. apply last_snoc.
    + apply IH in H as (pos & sc & c & s' & a & Hin & Hrest).
      exists pos, sc, c, s', a. split; [by right|done].
Qed.
End Frontier.

(** X7.  The hypotheses of the frontier that an iteration hands over are
    objects created in that iteration: none is an object that existed
    before (so none is a hypothesis of the frontier they come from) and no
    two of them are the same object.  Each has been updated by its theorem
    and carries no answer. *)
Theorem kept_hypotheses_fresh `{X : Externals} script beam_size hypotheses w
    new_hypotheses w' :
  beam_iter script beam_size hypotheses w = (Return (Continue new_hypotheses), w') ->
  NoDup (map h_ref new_hypotheses) /\
  Forall (fun h => (length (heap w) <= h_ref h)%nat /\
                   exists s, heap w' !! h_ref h = Some s /\
                             answer s = None /\ is_updated s = true)
         new_hypotheses.
Proof.
  intros H. unfold beam_iter in H.
  destruct (_ <=? _); [|discriminate].
  apply bind_inv_Return in H as (pool & w1 & Hexp & H).
  apply expand_heap in Hexp.
  apply advance_fresh in H as (kept & -> & Hnd & Hall). simpl.
  split; [done|]. by rewrite <- Hexp.
Qed.

Section Frontier_demo.
#[local] Existing Instances Demo.domain Demo.externals.

Lemma kept_hypotheses_fresh_witness :
  NoDup (map h_ref Demo.first_frontier) /\
  Forall (fun h => (length (heap Demo.world1) <= h_ref h)%nat /\
                   exists s, heap (snd Demo.first_iteration) !! h_ref h = Some s /\
                             answer s = None /\ is_updated s = true)
         Demo.first_frontier.
Proof.
  apply (kept_hypotheses_fresh eval_py 3 (initial_frontier 0%nat) Demo.world1
           Demo.first_frontier (snd Demo.first_iteration)).
  vm_compute. reflexivity.
Defined.
End Frontier_demo.

Section Result.
Context `{X : Externals}.

Lemma beam_iter_inv script beam_size hypotheses w c w' :
  beam_iter script beam_size hypotheses w = (Return c, w') ->
  exists pool w1,
    expand beam_size hypotheses [] w = (Return pool, w1) /\
    advance script pool (select beam_size pool) [] w1 = (Return c, w').
Proof.
  unfold beam_iter. destruct (_ <=? _); [|discriminate].
  intros H. apply bind_inv_Return in H as (pool & w1 & Hexp & H). eauto.
Qed.

Lemma pool_steps beam_size hypotheses k pool w w1 pos c :
  Forall (fun h => length (h_steps h) = k) hypotheses ->
  expand beam_size hypotheses [] w = (Return pool, w1) ->
  pool !! pos = Some c ->
  length (c_steps c) = S k.
Proof.
  intros Hk Hexp Hc.
  apply expand_spec in Hexp as (new & Hnew & _ & Hgen & _). simpl in Hnew. subst new.
  rewrite Forall_forall in Hgen.
  destruct (Hgen c) as (hyp & p & Hin & d & i & w2 & w3 & _ & _ & _ & _ & _ & _ & Hst);
    [by apply list_elem_of_lookup_2 in Hc|].
  rewrite Forall_forall in Hk.
  rewrite Hst, length_app, (Hk hyp Hin). simpl. lia.
Qed.

Lemma while_loop_result script beam_size remaining : forall k hypotheses w res w',
  Forall (fun h => length (h_steps h) = k) hypotheses ->
  while_loop script beam_size remaining hypotheses w = (Return res, w') ->
  res = empty_res \/
  exists s' a,
    last (heap w') = Some s' /\
    answer s' = Some a /\ is_updated s' = true /\
    res_answer res = Some a /\
    res_model_instance_eq_num res = Some (model_instance_eq_num s') /\
    match script with
    | eval_py =>
        exists thms, res_step_lst res = map ItemTheorem thms /\
                     (k < length thms <= k + remaining)%nat
    | app_py => res_step_lst res = map ItemStep (reasoning_record s')
    end.
Proof.
  induction remaining as [|n IH]; intros k hypotheses w res w' Hk H;
    cbn [while_loop] in H.
  - injection H as <- _. by left.
  - apply bind_inv_Return in H as (c & w1 & Hiter & H).
    apply beam_iter_inv in Hiter as (pool & w2 & Hexp & Hadv).
    destruct c as [new|res1].
    + apply advance_kept in Hadv as (kept & -> & Hkept). simpl in H.
      assert (Hk' : Forall (fun h => length (h_steps h) = S k) kept).
      { eapply Forall_impl; [exact Hkept|].
        intros h (pos & c & _ & Hc & Hst). rewrite Hst.
        eapply pool_steps; eauto. }
      destruct (IH _ _ _ _ _ Hk' H) as [->|(s' & a & Hl & Ha & Hup & Hra & Hre & Hst)];
        [by left|right].
      exists s', a. repeat split; try done.
      destruct script; [|done].
      destruct Hst as (thms & Hthms & Hlen). exists thms. split; [done|lia].
    + injection H as <- <-. right.
      apply advance_Finish in Hadv
        as (pos & sc & c & s' & a & _ & Hc & Hl & Ha & Hup & ->).
      exists s', a. repeat split; try done. simpl.
      destruct script; [|done].
      exists (c_steps c). split; [done|].
      rewrite (pool_steps _ _ _ _ _ _ _ _ Hk Hexp Hc). lia.
Qed.
End Result.


Section Result_demo.
#[local] Existing Instances Demo.domain Demo.externals.

End Result_demo.

(** * Further properties of the pipelines *)

Section Verdicts.
Context `{X : Externals} `{P : @Problems D}.

Lemma lift_inv {A} (o : Outcome A) w a w' :
  lift o w = (Return a, w') -> o = Return a /\ w' = w.
Proof. unfold lift. by intros [= -> ->]. Qed.

(** The direct check, as both scripts write it. *)
Lemma direct_check_inv (s : HypState) candidate_value_list gt_id w direct w' :
  match answer s with
  | Some a =>
      do checked <- lift (check_transformed_answer a candidate_value_list gt_id);
      ret (if fst checked then Some (snd checked) else None)
  | None => ret None
  end w = (Return direct, w') ->
  match direct with
  | Some a' =>
      exists a, check_transformed_answer a candidate_value_list gt_id =
                  Return (true, a')
  | None => True
  end.
Proof.
  destruct (answer s) as [a|].
  - intros H. apply bind_inv_Return in H as ([ok a'] & w1 & Hchk & H).
    apply lift_inv in Hchk as [Hchk _]. simpl in H.
    destruct ok; injection H as <- _; [|done]. by exists a.
  - intros [= <- _]. done.
Qed.

End Verdicts.

(** X9.  A record that [AgentSolver.solve] returns carries the identifier
    of the problem and the elapsed time.  Its correctness is "yes" only
    together with an answer that the verifier has accepted, and which is the
    answer the verifier returned; with the correctness "no" it carries no
    answer, or the answer returned by the verifier that rejected it. *)
Theorem eval_solve_verdict `{X : Externals} `{P : @Problems D}
    solver q_id clock w res w' :
  EvalPy.solve solver q_id clock w = (Return res, w') ->
  exists data code,
    load_data q_id = Return data /\
    ord (data_answer data) = Return code /\
    r_id res = IdStr q_id /\
    r_time res = Some clock /\
    ((r_correctness res = "yes" /\
      exists a a', check_transformed_answer a (precise_value data) (code - 65) =
                     Return (true, a') /\
                   r_answer res = Some a') \/
     (r_correctness res = "no" /\
      (r_answer res = None \/
       exists a a', check_transformed_answer a (precise_value data) (code - 65) =
                      Return (false, a') /\
                    r_answer res = Some a'))).
Proof.
  unfold EvalPy.solve. intros H.
  apply bind_inv_Return in H as (data & w1 & Hdata & H).
  apply lift_inv in Hdata as [Hdata _].
  apply bind_inv_Return in H as (code & w2 & Hcode & H).
  apply lift_inv in Hcode as [Hcode _].
  apply bind_inv_Return in H as (created & w3 & _ & H).
  apply bind_inv_Return in H as (graph_solver & w4 & _ & H).
  apply bind_inv_Return in H as (u & w5 & _ & H).
  apply bind_inv_Return in H as (s & w6 & _ & H).
  apply bind_inv_Return in H as (direct & w7 & Hdirect & H).
  apply direct_check_inv in Hdirect.
  exists data, code. split; [done|]. split; [done|].
  destruct direct as [a'|].
  - destruct Hdirect as [a Hchk].
    injection H as <- _. simpl. repeat split. left. split; [done|]. by exists a, a'.
  - apply bind_inv_Return in H as (beam_search_res & w8 & _ & H).
    destruct (res_answer beam_search_res) as [a|].
    + apply bind_inv_Return in H as ([ok a'] & w9 & Hchk & H).
      apply lift_inv in Hchk as [Hchk _]. simpl in H.
      destruct ok; injection H as <- _; simpl; repeat split.
      * left. split; [done|]. by exists a, a'.
      * right. split; [done|]. right. by exists a, a'.
    + injection H as <- _. simpl. repeat split. right. split; [done|]. by left.
Qed.

Section Verdict_demo.
#[local] Existing Instances Demo.domain Demo.externals Demo.problems.

Lemma eval_solve_verdict_witness :
  exists data code,
    load_data "3" = Return data /\
    ord (data_answer data) = Return code /\
    r_id Rejected.record = IdStr "3" /\
    r_time Rejected.record = Some "0.1" /\
    ((r_correctness Rejected.record = "yes" /\
      exists a a', check_transformed_answer a (precise_value data) (code - 65) =
                     Return (true, a') /\
                   r_answer Rejected.record = Some a') \/
     (r_correctness Rejected.record = "no" /\
      (r_answer Rejected.record = None \/
       exists a a', check_transformed_answer a (precise_value data) (code - 65) =
                      Return (false, a') /\
                    r_answer Rejected.record = Some a'))).
Proof.
  apply (eval_solve_verdict Demo.solver "3" "0.1" Demo.world0 Rejected.record
           (snd (EvalPy.solve Demo.solver "3" "0.1" Demo.world0))).
  vm_compute. reflexivity.
Defined.
End Verdict_demo.

Section AppVerdicts.
Context `{X : Externals} `{P : @Problems D}.

Lemma try_except_inv {A} (body : M A) (handler : Exc -> M A) w o w' :
  try_except body handler w = (o, w') ->
  (exists a, body w = (Return a, w') /\ o = Return a) \/
  (exists e w1, body w = (Raise e, w1) /\ handler e w1 = (o, w')).
Proof.
  unfold try_except. destruct (body w) as [[a|e] w1]; intros H.
  - injection H as <- <-. left. eauto.
  - right. eauto.
Qed.

Lemma read_inv a w s w' :
  read a w = (Return s, w') -> heap w !! a = Some s /\ w' = w.
Proof.
  unfold read. destruct (heap w !! a) as [s0|]; [|discriminate].
  by intros [= -> ->].
Qed.

(** The direct check of [app.py]: what it says about the answer of the
    initial hypothesis. *)
Lemma app_direct_inv (s : HypState) (data : Data Choices) code w direct w' :
  match answer s with
  | Some a =>
      do checked <- lift (check_transformed_answer a (precise_value data) (code - 65));
      ret (if fst checked then Some (snd checked) else None)
  | None => ret None
  end w = (Return direct, w') ->
  w' = w /\
  match direct with
  | Some a' =>
      exists a, answer s = Some a /\
                check_transformed_answer a (precise_value data) (code - 65) =
                  Return (true, a')
  | None => AppPaths.direct_rejected data code s
  end.
Proof.
  unfold AppPaths.direct_rejected.
  destruct (answer s) as [a|].
  - intros H. apply bind_inv_Return in H as ([ok a'] & w1 & Hchk & H).
    apply lift_inv in Hchk as [Hchk ->]. simpl in H.
    destruct ok; injection H as <- <-; split; eauto.
  - intros [= <- <-]. done.
Qed.

(** The path of [solve] of [app.py] on which nothing is returned. *)
Lemma app_solve_None q_id max_step beam_size clock w data code
    beam_search_res w2 a a' :
  ineligible q_id = false ->
  load_data q_id = Return data ->
  ord (data_answer data) = Return code ->
  AppPaths.searched q_id max_step beam_size w data code beam_search_res w2 ->
  res_answer beam_search_res = Some a ->
  check_transformed_answer a (precise_value data) (code - 65) = Return (false, a') ->
  AppPy.solve q_id max_step beam_size clock w = (Return None, w2).
Proof.
  intros Hel Hdata Hcode (s & w1 & (created & Hcr & Hinit & Hs) & Hdir & Hbs) Ha Hchk.
  unfold AppPy.solve. rewrite Hel.
  unfold bind at 1. unfold lift at 1. rewrite Hdata.
  unfold bind at 1. unfold lift at 1. rewrite Hcode.
  unfold try_except at 1.
  unfold bind at 1. unfold lift at 1. rewrite Hcr.
  unfold bind at 1. unfold alloc at 1.
  unfold alloc in Hinit. cbn [snd] in Hinit.
  rewrite (bind_Return _ _ _ _ _ Hinit).
  unfold bind at 1. unfold read at 1. rewrite Hs.
  unfold AppPaths.direct_rejected in Hdir.
  destruct (answer s) as [a0|].
  - destruct Hdir as [a0' Hrej].
    unfold bind at 1. unfold bind at 1. unfold lift at 1. rewrite Hrej.
    cbn [fst snd ret].
    rewrite (bind_Return _ _ _ _ _ Hbs).
    unfold try_except. rewrite Ha.
    unfold bind, lift. rewrite Hchk. reflexivity.
  - unfold bind at 1. cbn [ret].
    rewrite (bind_Return _ _ _ _ _ Hbs).
    unfold try_except. rewrite Ha.
    unfold bind, lift. rewrite Hchk. reflexivity.
Qed.

(** What [solve] of [app.py] does once the data of an eligible problem
    are loaded. *)
Lemma app_solve_body q_id max_step beam_size clock w o w' data code :
  ineligible q_id = false ->
  load_data q_id = Return data ->
  ord (data_answer data) = Return code ->
  AppPy.solve q_id max_step beam_size clock w = (o, w') ->
  exists v,
    o = Return v /\
    (v = None <->
     exists beam_search_res a a',
       AppPaths.searched q_id max_step beam_size w data code beam_search_res w' /\
       res_answer beam_search_res = Some a /\
       check_transformed_answer a (precise_value data) (code - 65) =
         Return (false, a')) /\
    (forall res, v = Some res ->
       r_id res = IdStr q_id /\
       ((r_correctness res = "yes" /\
         exists a a',
           check_transformed_answer a (precise_value data) (code - 65) =
             Return (true, a') /\
           r_answer res = Some a' /\
           ((exists s, AppPaths.initialised q_id w s w' /\ answer s = Some a) \/
            (exists beam_search_res,
               AppPaths.searched q_id max_step beam_size w data code
                 beam_search_res w' /\
               res_answer beam_search_res = Some a))) \/
        (r_correctness res = "no" /\ r_answer res = None))).
Proof.
  intros Hel Hdata Hcode H.
  assert (Hback : forall v,
            o = Return v ->
            (exists beam_search_res a a',
               AppPaths.searched q_id max_step beam_size w data code
                 beam_search_res w' /\
               res_answer beam_search_res = Some a /\
               check_transformed_answer a (precise_value data) (code - 65) =
                 Return (false, a')) ->
            v = None).
  { intros v -> (bres & a & a' & Hsearched & Ha & Hchk).
    rewrite (app_solve_None _ _ _ clock _ _ _ _ _ _ _ Hel Hdata Hcode Hsearched Ha Hchk)
      in H.
    by injection H as <-. }
  revert H. unfold AppPy.solve. rewrite Hel.
  unfold bind at 1. unfold lift at 1. rewrite Hdata.
  unfold bind at 1. unfold lift at 1. rewrite Hcode.
  intros H. apply try_except_inv in H as [(v & H & ->)|(e & w1 & _ & H)].
  - exists v. split; [done|].
    apply bind_inv_Return in H as (created & w3 & Hcr & H).
    apply lift_inv in Hcr as [Hcr ->].
    apply bind_inv_Return in H as (graph_solver & w4 & Halloc & H).
    assert (graph_solver = length (heap w) /\ w4 = snd (alloc (fst created) w))
      as [-> ->] by (unfold alloc in Halloc |- *; by injection Halloc as <- <-).
    apply bind_inv_Return in H as ([] & w5 & Hinit & H).
    apply bind_inv_Return in H as (s & w6 & Hread & H).
    apply read_inv in Hread as [Hs ->].
    assert (Hinitialised : AppPaths.initialised q_id w s w5) by (by exists created).
    apply bind_inv_Return in H as (direct & w7 & Hdirect & H).
    apply app_direct_inv in Hdirect as [-> Hdirect].
    destruct direct as [a'|].
    + destruct Hdirect as (a & Ha & Hchk). injection H as <- <-.
      split; [split; [done|by apply Hback]|].
      intros res [= <-]. simpl. split; [done|]. left. split; [done|].
      exists a, a'. split_and!; [done|done|]. left. by exists s.
    + apply bind_inv_Return in H as (beam_search_res & w8 & Hbs & H).
      assert (Hsearched : AppPaths.searched q_id max_step beam_size w data code
                            beam_search_res w8) by (by exists s, w5).
      apply try_except_inv in H as [(v' & H & [= <-])|(e & w9 & _ & H)].
      * destruct (res_answer beam_search_res) as [a|] eqn:Ha.
        -- apply bind_inv_Return in H as ([ok a'] & w10 & Hchk & H).
           apply lift_inv in Hchk as [Hchk ->]. simpl in H.
           destruct ok; injection H as <- <-.
           ++ split; [split; [done|by apply Hback]|].
              intros res [= <-]. simpl. split; [done|]. left. split; [done|].
              exists a, a'. split_and!; [done|done|]. right. by exists beam_search_res.
           ++ split; [|done]. split; [|done]. intros _.
              by exists beam_search_res, a, a'.
        -- injection H as <- <-.
           split; [split; [done|by apply Hback]|].
           intros res [= <-]. simpl. split; [done|]. by right.
      * unfold bind, emit, ret in H. injection H as <- _.
        split; [split; [done|by apply Hback]|].
        intros res [= <-]. simpl. split; [done|]. by right.
  - exists (Some (default_res (IdStr q_id))).
    unfold bind, emit, ret in H. injection H as <- _.
    split; [done|]. split; [split; [done|by apply Hback]|].
    intros res [= <-]. simpl. split; [done|]. by right.
Qed.
End AppVerdicts.

(** X10.  [solve] of [app.py] returns the default record for a problem that
    is not eligible.  For an eligible problem whose data are loaded it
    always returns: what the construction of the hypothesis, the search or
    the verifier raise is caught.  It returns [None], not a record, exactly
    when its run has reached the search, the search has returned an answer
    and the verifier has rejected that answer.  A record it returns has the
    correctness "yes" only with the answer that the verifier has returned
    on accepting the answer of the initial hypothesis after [init_solve],
    or the answer that the search has returned; it has the correctness
    "no" only without an answer. *)
Theorem app_solve_verdict `{X : Externals} `{P : @Problems D}
    q_id max_step beam_size clock w o w' :
  AppPy.solve q_id max_step beam_size clock w = (o, w') ->
  (ineligible q_id = true -> o = Return (Some (default_res (IdStr q_id)))) /\
  (ineligible q_id = false ->
   forall data code,
     load_data q_id = Return data ->
     ord (data_answer data) = Return code ->
     exists v,
       o = Return v /\
       (v = None <->
        exists beam_search_res a a',
          AppPaths.searched q_id max_step beam_size w data code beam_search_res w' /\
          res_answer beam_search_res = Some a /\
          check_transformed_answer a (precise_value data) (code - 65) =
            Return (false, a')) /\
       (forall res, v = Some res ->
          r_id res = IdStr q_id /\
          ((r_correctness res = "yes" /\
            exists a a',
              check_transformed_answer a (precise_value data) (code - 65) =
                Return (true, a') /\
              r_answer res = Some a' /\
              ((exists s, AppPaths.initialised q_id w s w' /\ answer s = Some a) \/
               (exists beam_search_res,
                  AppPaths.searched q_id max_step beam_size w data code
                    beam_search_res w' /\
                  res_answer beam_search_res = Some a))) \/
           (r_correctness res = "no" /\ r_answer res = None)))).
Proof.
  intros H. split.
  - intros Hel. unfold AppPy.solve in H. rewrite Hel in H.
    unfold bind, emit, ret in H. by injection H as <- _.
  - intros Hel data code Hdata Hcode. eapply app_solve_body; eauto.
Qed.

(** X11.  [solve] of [app.py] raises only what the reading of the data
    file raises, or [ord] on the answer letter it holds: these statements
    stand before the [try].  The world is then as it was. *)
Theorem app_solve_raises `{X : Externals} `{P : @Problems D}
    q_id max_step beam_size clock w e w' :
  AppPy.solve q_id max_step beam_size clock w = (Raise e, w') ->
  ineligible q_id = false /\
  w' = w /\
  (load_data q_id = Raise e \/
   exists data, load_data q_id = Return data /\ ord (data_answer data) = Raise e).
Proof.
  intros H.
  destruct (ineligible q_id) eqn:Hel.
  - unfold AppPy.solve in H. rewrite Hel in H.
    unfold bind, emit, ret in H. discriminate.
  - split; [done|].
    destruct (load_data q_id) as [data|e1] eqn:Hdata.
    + destruct (ord (data_answer data)) as [code|e2] eqn:Hcode.
      * destruct (app_solve_body _ _ _ _ _ _ _ _ _ Hel Hdata Hcode H) as (v & Hv & _).
        discriminate.
      * unfold AppPy.solve in H. rewrite Hel in H.
        unfold bind at 1 in H. unfold lift at 1 in H. rewrite Hdata in H.
        unfold bind at 1 in H. unfold lift at 1 in H. rewrite Hcode in H.
        injection H as <- <-. split; [done|]. right. by exists data.
    + unfold AppPy.solve in H. rewrite Hel in H.
      unfold bind at 1 in H. unfold lift at 1 in H. rewrite Hdata in H.
      injection H as <- <-. split; [done|]. by left.
Qed.

Section AppVerdict_demo.
#[local] Existing Instances Demo.domain Demo.externals Demo.problems.

Lemma app_solve_verdict_witness :
  (ineligible "3" = true -> Return None = Return (Some (default_res (IdStr "3")))) /\
  (ineligible "3" = false ->
   forall data code,
     load_data "3" = Return data ->
     ord (data_answer data) = Return code ->
     exists v : option ResultRecord,
       Return None = Return v /\
       (v = None <->
        exists beam_search_res a a',
          AppPaths.searched "3" 10 3 Demo.world0 data code beam_search_res
            (snd (AppPy.solve "3" 10 3 "0.1" Demo.world0)) /\
          res_answer beam_search_res = Some a /\
          check_transformed_answer a (precise_value data) (code - 65) =
            Return (false, a')) /\
       (forall res, v = Some res ->
          r_id res = IdStr "3" /\
          ((r_correctness res = "yes" /\
            exists a a',
              check_transformed_answer a (precise_value data) (code - 65) =
                Return (true, a') /\
              r_answer res = Some a' /\
              ((exists s, AppPaths.initialised "3" Demo.world0 s
                            (snd (AppPy.solve "3" 10 3 "0.1" Demo.world0)) /\
                          answer s = Some a) \/
               (exists beam_search_res,
                  AppPaths.searched "3" 10 3 Demo.world0 data code beam_search_res
                    (snd (AppPy.solve "3" 10 3 "0.1" Demo.world0)) /\
                  res_answer beam_search_res = Some a))) \/
           (r_correctness res = "no" /\ r_answer res = None)))).
Proof.
  apply (app_solve_verdict "3" 10 3 "0.1" Demo.world0 (Return None)
           (snd (AppPy.solve "3" 10 3 "0.1" Demo.world0))).
  vm_compute. reflexivity.
Defined.

Lemma app_solve_raises_witness :
  ineligible "5" = false /\
  Demo.world0 = Demo.world0 /\
  (load_data "5" = Raise (Exception "No such file or directory") \/
   exists data, load_data "5" = Return data /\
                ord (data_answer data) = Raise (Exception "No such file or directory")).
Proof.
  apply (app_solve_raises "5" 10 3 "0.1" Demo.world0
           (Exception "No such file or directory") Demo.world0).
  vm_compute. reflexivity.
Defined.
End AppVerdict_demo.

(** * Further properties of the orchestration *)

(** X12.  In [solve_with_time] of [eval.py] at most two children are
    started, the fallback never without the primary one.  A child is
    terminated exactly when it was started and is not back within its 120
    seconds, and exactly then a timeout is logged for it.  One line closes
    the handling of the problem: the one on ineligibility, or the debug line
    with the record, which is the record returned. *)
Theorem processes_accounted `{X : Externals} `{P : @Problems D}
    solver state q_id clock in_time :
  let run := EvalPy.solve_with_time solver state q_id clock in_time in
  (forall st, ProcTerminate st ∈ snd run <->
              ProcStart st ∈ snd run /\ in_time st = false) /\
  (forall st, LogTimeout st ∈ snd run <-> ProcTerminate st ∈ snd run) /\
  (ProcStart Fallback ∈ snd run -> ProcStart Primary ∈ snd run) /\
  (length (List.filter is_start (snd run)) <= 2)%nat /\
  length (List.filter is_final (snd run)) = 1%nat /\
  (ineligible (pretty q_id) = false -> last (snd run) = Some (LogResult (fst run))).
Proof.
  cbv zeta.
  unfold EvalPy.solve_with_time, run_process, EvalPy.solve_process,
    EvalPy.solve_heuristic_process.
  destruct (ineligible (pretty q_id)); simpl.
  { split_and!; try (lazymatch goal with |- forall _ : Stage, _ => intros st; destruct st end); try (simpl; lia); try reflexivity;
      rewrite ?elem_of_cons, ?elem_of_nil; naive_solver. }
  destruct (in_time Primary) eqn:Hp; simpl;
    [destruct (fst (EvalPy.solve solver (pretty q_id) clock state)) as [r|e]; simpl;
     [destruct (String.eqb (r_correctness r) "no"); simpl|]|];
    try (destruct (in_time Fallback) eqn:Hf; simpl;
         [destruct (solve_question (pretty q_id)) as [r2|e2]; simpl|]);
    (split_and!; try (lazymatch goal with |- forall _ : Stage, _ => intros st; destruct st end); try (simpl; lia); try reflexivity;
     rewrite ?elem_of_cons, ?elem_of_nil, ?Hp, ?Hf; naive_solver).
Qed.

Section Batch.
Context `{X : Externals} `{P : @Problems D}.

Lemma solve_with_time_counts solver state q_id clock in_time :
  (length (List.filter is_start
             (snd (EvalPy.solve_with_time solver state q_id clock in_time))) <= 2)%nat /\
  length (List.filter is_final
            (snd (EvalPy.solve_with_time solver state q_id clock in_time))) = 1%nat.
Proof.
  unfold EvalPy.solve_with_time, run_process, EvalPy.solve_process,
    EvalPy.solve_heuristic_process.
  destruct (ineligible (pretty q_id)); simpl; [split; [lia|done]|].
  destruct (in_time Primary); simpl;
    [destruct (fst (EvalPy.solve solver (pretty q_id) clock state)) as [r|e]; simpl;
     [destruct (String.eqb (r_correctness r) "no"); simpl|]|];
    try (destruct (in_time Fallback); simpl;
         [destruct (solve_question (pretty q_id)) as [r2|e2]; simpl|]);
    (split; [lia|done]).
Qed.

Lemma flat_map_counts {A} (kind : OEvent -> bool) (f : A -> list OEvent) (l : list A) n :
  (forall x, length (List.filter kind (f x)) <= n)%nat ->
  (length (List.filter kind (flat_map f l)) <= n * length l)%nat.
Proof.
  intros Hf. induction l as [|x l IH]; simpl; [lia|].
  rewrite List.filter_app, length_app. specialize (Hf x). lia.
Qed.

Lemma flat_map_count {A} (kind : OEvent -> bool) (f : A -> list OEvent) (l : list A) :
  (forall x, length (List.filter kind (f x)) = 1)%nat ->
  length (List.filter kind (flat_map f l)) = length l.
Proof.
  intros Hf. induction l as [|x l IH]; simpl; [lia|].
  rewrite List.filter_app, length_app. specialize (Hf x). lia.
Qed.
End Batch.

(** X13.  [eval] closes the handling of every identifier from [st] to
    [ed - 1] with one line, so [ed - st] lines in all (none when [ed] is
    not above [st]), and starts at most two children for each of them. *)
Theorem eval_counts `{X : Externals} `{P : @Problems D}
    solver state st ed clock in_time :
  length (List.filter is_final (EvalPy.eval solver state st ed clock in_time)) =
    Z.to_nat (ed - st) /\
  (length (List.filter is_start (EvalPy.eval solver state st ed clock in_time)) <=
   2 * Z.to_nat (ed - st))%nat.
Proof.
  unfold EvalPy.eval. split.
  - rewrite flat_map_count; [apply length_seqZ|].
    intros q_id. apply solve_with_time_counts.
  - rewrite <- (length_seqZ st (ed - st)). apply flat_map_counts.
    intros q_id. apply solve_with_time_counts.
Qed.

(** * The vocabularies *)

Section VocabFacts.
Variable strip : string -> string.

Lemma vocab_snoc lines x :
  Vocab.vocab strip (lines ++ [x]) =
    <[strip x := length lines]> (Vocab.vocab strip lines).
Proof.
  unfold Vocab.vocab, Vocab.enumerate.
  rewrite imap_app, fold_left_app. simpl. by rewrite Nat.add_0_r.
Qed.

Lemma vocab_lookup_iff lines : forall k i,
  Vocab.vocab strip lines !! k = Some i <->
  exists line, lines !! i = Some line /\ strip line = k /\
               forall j line', (i < j)%nat -> lines !! j = Some line' ->
                               strip line' <> k.
Proof.
  induction lines as [|x lines IH] using rev_ind; intros k i.
  - unfold Vocab.vocab. simpl. rewrite lookup_empty. split; [done|].
    intros (line & Hl & _). done.
  - rewrite vocab_snoc. destruct (decide (strip x = k)) as [Hk|Hk].
    + rewrite Hk, lookup_insert_eq. split.
      * intros [= <-]. exists x. split; [apply lookup_last|]. split; [done|].
        intros j line' Hj Hl. apply lookup_lt_Some in Hl.
        rewrite length_app in Hl. simpl in Hl. lia.
      * intros (line & Hl & Hs & Hlast).
        pose proof (lookup_lt_Some _ _ _ Hl) as Hlt.
        rewrite length_app in Hlt. simpl in Hlt.
        destruct (decide (i = length lines)) as [->|Hne]; [done|].
        exfalso. apply (Hlast (length lines) x); [lia|apply lookup_last|done].
    + rewrite lookup_insert_ne by done. rewrite IH. split.
      * intros (line & Hl & Hs & Hlast). exists line.
        split; [by apply lookup_app_l_Some|]. split; [done|].
        intros j line' Hj Hl'.
        destruct (decide (j < length lines)%nat) as [Hlt|Hge].
        -- rewrite lookup_app_l in Hl' by done. by eapply Hlast.
        -- pose proof (lookup_lt_Some _ _ _ Hl') as Hlt.
           rewrite length_app in Hlt. simpl in Hlt.
           assert (j = length lines) as -> by lia.
           rewrite lookup_last in Hl'. by injection Hl' as <-.
      * intros (line & Hl & Hs & Hlast).
        pose proof (lookup_lt_Some _ _ _ Hl) as Hlt.
        rewrite length_app in Hlt. simpl in Hlt.
        destruct (decide (i = length lines)) as [->|Hne].
        { rewrite lookup_last in Hl. injection Hl as <-. done. }
        rewrite lookup_app_l in Hl by lia.
        exists line. split; [done|]. split; [done|].
        intros j line' Hj Hl'. apply (Hlast j line' Hj).
        by apply lookup_app_l_Some.
Qed.

Lemma vocab_size_le lines :
  (Vocab.vocab_size strip lines <= length lines)%nat.
Proof.
  unfold Vocab.vocab_size.
  induction lines as [|x lines IH] using rev_ind.
  - unfold Vocab.vocab. simpl. by rewrite map_size_empty.
  - rewrite vocab_snoc, map_size_insert, length_app. simpl.
    destruct (Vocab.vocab strip lines !! strip x); simpl; lia.
Qed.
End VocabFacts.

(** X14.  A vocabulary maps a key to the index of the last line whose
    stripped text is that key, and to nothing when there is no such line.
    So every index it holds is below the number of lines, and it has at
    most as many entries as there are lines. *)
Theorem vocab_last_occurrence (strip : string -> string) (lines : list string) :
  (forall k i,
     Vocab.vocab strip lines !! k = Some i <->
     exists line, lines !! i = Some line /\ strip line = k /\
                  forall j line', (i < j)%nat -> lines !! j = Some line' ->
                                  strip line' <> k) /\
  (forall k i, Vocab.vocab strip lines !! k = Some i -> (i < length lines)%nat) /\
  (Vocab.vocab_size strip lines <= length lines)%nat.
Proof.
  split; [apply vocab_lookup_iff|]. split; [|apply vocab_size_le].
  intros k i Hk. apply vocab_lookup_iff in Hk as (line & Hl & _).
  by apply lookup_lt_Some in Hl.
Qed.

(** X15.  When the stripped lines are pairwise distinct, the vocabulary
    maps every line to its own index and has as many entries as there are
    lines, so that every index it holds is below its size, the size that
    the model is built for. *)
Theorem vocab_distinct_lines (strip : string -> string) (lines : list string) :
  NoDup (strip <$> lines) ->
  (forall i line, lines !! i = Some line ->
                  Vocab.vocab strip lines !! strip line = Some i) /\
  Vocab.vocab_size strip lines = length lines /\
  (forall k i, Vocab.vocab strip lines !! k = Some i ->
               (i < Vocab.vocab_size strip lines)%nat).
Proof.
  intros Hnd.
  assert (Hround : forall i line, lines !! i = Some line ->
                     Vocab.vocab strip lines !! strip line = Some i).
  { intros i line Hl. apply vocab_lookup_iff. exists line.
    split; [done|]. split; [done|].
    intros j line' Hj Hl' Heq.
    assert (i = j); [|lia].
    eapply NoDup_lookup; [exact Hnd| |].
    - rewrite list_lookup_fmap, Hl. reflexivity.
    - rewrite list_lookup_fmap, Hl'. simpl. by rewrite Heq. }
  assert (Hsize : Vocab.vocab_size strip lines = length lines).
  { unfold Vocab.vocab_size. clear Hround.
    induction lines as [|x lines IH] using rev_ind.
    - unfold Vocab.vocab. simpl. by rewrite map_size_empty.
    - rewrite fmap_app in Hnd. apply NoDup_app in Hnd as (Hnd & Hdisj & _).
      rewrite vocab_snoc, map_size_insert, length_app. simpl.
      destruct (Vocab.vocab strip lines !! strip x) as [i|] eqn:Hx.
      + exfalso. apply vocab_lookup_iff in Hx as (line & Hl & Hs & _).
        apply (Hdisj (strip x)).
        * rewrite <- Hs. apply list_elem_of_fmap. exists line. split; [done|].
          by apply list_elem_of_lookup_2 in Hl.
        * simpl. by left.
      + simpl. rewrite IH by done. lia. }
  split; [exact Hround|]. split; [exact Hsize|].
  intros k i Hk. rewrite Hsize.
  apply vocab_lookup_iff in Hk as (line & Hl & _).
  by apply lookup_lt_Some in Hl.
Qed.

Lemma vocab_distinct_lines_witness :
  (forall i line, Vocab.sample !! i = Some line ->
                  Vocab.vocab Vocab.keep Vocab.sample !! Vocab.keep line = Some i) /\
  Vocab.vocab_size Vocab.keep Vocab.sample = length Vocab.sample /\
  (forall k i, Vocab.vocab Vocab.keep Vocab.sample !! k = Some i ->
               (i < Vocab.vocab_size Vocab.keep Vocab.sample)%nat).
Proof.
  apply (vocab_distinct_lines Vocab.keep Vocab.sample).
  vm_compute. repeat (constructor; [set_solver|]). constructor.
Defined.

(** * The choice that the front-end proposes *)

Section DisplayFacts.
Variable Num : Type.
Variable lt : Num -> Num -> bool.
Variable eqb : Num -> Num -> bool.
Hypothesis eqb_eq : forall a b, eqb a b = true <-> a = b.
Hypothesis lt_irrefl : forall a, lt a a = false.
Hypothesis lt_trans : forall a b c, lt a b = true -> lt b c = true -> lt a c = true.

Lemma fold_min_spec l : forall m seen,
  m ∈ seen -> (forall y, y ∈ seen -> lt y m = false) ->
  let m' := fold_left (fun m y => if lt y m then y else m) l m in
  m' ∈ seen ++ l /\ forall y, y ∈ seen ++ l -> lt y m' = false.
Proof.
  induction l as [|x l IH]; intros m seen Hm Hmin; simpl.
  - rewrite app_nil_r. done.
  - replace (seen ++ x :: l) with ((seen ++ [x]) ++ l) by (by rewrite <- app_assoc).
    destruct (lt x m) eqn:Hx; apply IH.
    + set_solver.
    + intros y Hy. apply elem_of_app in Hy as [Hy|Hy].
      * destruct (lt y x) eqn:Hyx; [|done].
        rewrite <- (Hmin y Hy). symmetry. by eapply lt_trans.
      * apply list_elem_of_singleton in Hy as ->. apply lt_irrefl.
    + set_solver.
    + intros y Hy. apply elem_of_app in Hy as [Hy|Hy]; [by apply Hmin|].
      by apply list_elem_of_singleton in Hy as ->.
Qed.

Lemma py_index_spec l v :
  v ∈ l ->
  exists i,
    Display.py_index Num eqb l v = Return i /\
    l !! i = Some v /\
    forall j d, (j < i)%nat -> l !! j = Some d -> d <> v.
Proof.
  induction l as [|x l IH]; intros Hin; [by apply elem_of_nil in Hin|].
  simpl. destruct (eqb x v) eqn:Hx.
  - apply eqb_eq in Hx as ->. exists 0%nat. repeat split. intros j d Hj. lia.
  - assert (Hne : x <> v) by (intros ->; rewrite (proj2 (eqb_eq v v) eq_refl) in Hx; done).
    apply elem_of_cons in Hin as [->|Hin]; [done|].
    destruct (IH Hin) as (i & -> & Hi & Hfirst).
    exists (S i). repeat split; [done|].
    intros [|j] d Hj Hd; simpl in Hd.
    + by injection Hd as <-.
    + apply (Hfirst j); [lia|done].
Qed.
(** X16.  With an order on the distances that is strict and transitive,
    and an equality test that decides equality, the front-end proposes,
    for a list of distances that is not empty, the letter of the first
    choice that no choice is nearer than: the letter at the first position
    of the least distance.  It raises [IndexError] when that position is
    the fifth or a later one, and the error of [min] when there is no
    choice at all. *)
Theorem closest_is_first_minimum (candi_answer : list Num) :
  (candi_answer = [] ->
   Display.closest Num lt eqb candi_answer =
     Raise (Exception "min() arg is an empty sequence")) /\
  (candi_answer <> [] ->
   exists i d,
     candi_answer !! i = Some d /\
     (forall j d', candi_answer !! j = Some d' -> lt d' d = false) /\
     (forall j d', (j < i)%nat -> candi_answer !! j = Some d' -> d' <> d) /\
     Display.closest Num lt eqb candi_answer =
       match Display.choices_map !! i with
       | Some letter => Return letter
       | None => Raise IndexError
       end).
Proof.
  split; [by intros ->|].
  destruct candi_answer as [|x l]; [done|]. intros _.
  unfold Display.closest. cbn [Display.py_min].
  set (m := fold_left (fun m y => if lt y m then y else m) l x).
  destruct (fold_min_spec l x [x]) as [Hin Hmin].
  { by left. }
  { intros y Hy. apply list_elem_of_singleton in Hy as ->. apply lt_irrefl. }
  fold m in Hin, Hmin. simpl in Hin, Hmin.
  destruct (py_index_spec (x :: l) m Hin) as (i & Hidx & Hi & Hfirst).
  rewrite Hidx. exists i, m. split; [done|]. split; [|split; [done|done]].
  intros j d' Hj. apply Hmin. by apply list_elem_of_lookup_2 in Hj.
Qed.
End DisplayFacts.

Lemma closest_is_first_minimum_witness :
  ([7; 2; 9; 2] = [] ->
   Display.closest Z Z.ltb Z.eqb [7; 2; 9; 2] =
     Raise (Exception "min() arg is an empty sequence")) /\
  ([7; 2; 9; 2] <> [] ->
   exists i d,
     [7; 2; 9; 2] !! i = Some d /\
     (forall j d', [7; 2; 9; 2] !! j = Some d' -> (d' <? d) = false) /\
     (forall j d', (j < i)%nat -> [7; 2; 9; 2] !! j = Some d' -> d' <> d) /\
     Display.closest Z Z.ltb Z.eqb [7; 2; 9; 2] =
       match Display.choices_map !! i with
       | Some letter => Return letter
       | None => Raise IndexError
       end).
Proof.
  refine (closest_is_first_minimum Z Z.ltb Z.eqb _ _ _ [7; 2; 9; 2]).
  - intros a b. apply Z.eqb_eq.
  - intros a. apply Z.ltb_irrefl.
  - intros a b c H1 H2. apply Z.ltb_lt in H1, H2. apply Z.ltb_lt. lia.
Defined.

(** * The objects that a search creates *)

Section Clones.
Context `{X : Externals}.

Lemma visit_heap_length script pool cand_hyp_id cand_hyp_score w o w' :
  visit script pool cand_hyp_id cand_hyp_score w = (o, w') ->
  (length (heap w') <= S (length (heap w)))%nat.
Proof.
  intros H.
  destruct (pool !! cand_hyp_id) as [c|] eqn:Hc.
  - destruct (heap w !! c_hyp c) as [s|] eqn:Hs.
    + rewrite (visit_eq _ _ _ _ _ _ _ Hc Hs) in H. injection H as _ <-.
      unfold visited. destruct (attempt _ _); simpl; rewrite length_app; simpl; lia.
    + unfold visit in H. rewrite Hc in H.
      unfold deepcopy, bind, read in H. rewrite Hs in H. injection H as _ <-. lia.
  - unfold visit in H. rewrite Hc in H. injection H as _ <-. lia.
Qed.

Lemma advance_heap_length script pool top : forall new w o w',
  advance script pool top new w = (o, w') ->
  (length (heap w') <= length (heap w) + length top)%nat.
Proof.
  induction top as [|[cand_hyp_id cand_hyp_score] top IH]; intros new w o w' H;
    simpl in H.
  - injection H as _ <-. lia.
  - unfold bind in H.
    destruct (visit script pool cand_hyp_id cand_hyp_score w) as [[r|e] w1] eqn:Hv;
      apply visit_heap_length in Hv.
    + destruct r as [|res|h].
      * apply IH in H. simpl. lia.
      * injection H as _ <-. simpl. lia.
      * apply IH in H. simpl. lia.
    + injection H as _ <-. simpl. lia.
Qed.

Lemma beam_iter_heap_length script beam_size hypotheses w o w' :
  topk_contract ->
  beam_iter script beam_size hypotheses w = (o, w') ->
  (length (heap w') <= length (heap w) + Z.to_nat beam_size)%nat.
Proof.
  intros Htopk. unfold beam_iter. destruct (_ <=? _); [|intros [= _ <-]; lia].
  unfold bind at 1.
  destruct (expand beam_size hypotheses [] w) as [[pool|e] w1] eqn:Hexp;
    apply expand_heap in Hexp; rewrite <- Hexp.
  - intros H. apply advance_heap_length in H.
    pose proof (select_spec beam_size pool Htopk) as [Hsel _]. lia.
  - intros [= _ <-]. lia.
Qed.

Lemma while_loop_heap_length script beam_size remaining :
  topk_contract ->
  forall hypotheses w o w',
    while_loop script beam_size remaining hypotheses w = (o, w') ->
    (length (heap w') <= length (heap w) + remaining * Z.to_nat beam_size)%nat.
Proof.
  intros Htopk.
  induction remaining as [|n IH]; intros hypotheses w o w' H; cbn [while_loop] in H.
  - injection H as _ <-. lia.
  - unfold bind in H.
    destruct (beam_iter script beam_size hypotheses w) as [[c|e] w1] eqn:Hiter;
      apply (beam_iter_heap_length _ _ _ _ _ _ Htopk) in Hiter.
    + destruct c as [new|res].
      * apply IH in H. lia.
      * injection H as _ <-. lia.
    + injection H as _ <-. lia.
Qed.
End Clones.

(** X17.  An iteration clones a parent once for each candidate that
    [torch.topk] selects, kept or dropped, and creates no other object: a
    search creates at most [beam_size] objects in each iteration, so at most
    [max_step * beam_size] in all, whatever its outcome. *)
Theorem clones_bounded `{X : Externals} script max_step beam_size graph_solver w :
  topk_contract ->
  (length (heap (snd (beam_search_of script max_step beam_size graph_solver w))) <=
   length (heap w) + Z.to_nat max_step * Z.to_nat beam_size)%nat.
Proof.
  intros Htopk. unfold beam_search_of.
  eapply while_loop_heap_length; [exact Htopk|]. apply surjective_pairing.
Qed.

Section Clones_demo.
#[local] Existing Instances Demo.domain Demo.externals.

Lemma clones_bounded_witness :
  (length (heap (snd (beam_search_of eval_py 10 3 0%nat Demo.world1))) <=
   length (heap Demo.world1) + Z.to_nat 10 * Z.to_nat 3)%nat.
Proof.
  apply (clones_bounded eval_py 10 3 0%nat Demo.world1).
  exact demo_topk_contract.
Defined.
End Clones_demo.
